(** * testable: a shallow embedding of [testable.go]

    The program reads a Go package, extracts the shape of its structs
    (exported fields and methods) and renders two derived packages from
    text templates.  This file embeds the functions of [testable.go] as
    Rocq functions and states the properties of the specification about
    them.

    Conventions of the embedding.
    - A Go [string] / [[]byte] is a [string] (a sequence of bytes).
    - A Go [map[string]V] is a [gmap string V]; a [range] loop over a map
      visits the entries in an order chosen by the runtime, which is a
      parameter of every function that contains such a loop ([Sched]).
    - A call that returns [(v, err)] returns a [Res]: [Ok v], [Err e], or
      [Panic] when the Go runtime aborts (index or slice out of range).
    - What the Go standard library and the operating system answer (reading
      a directory, parsing a file, formatting a source text, ...) is taken
      from an environment record [Env]. *)

From Stdlib Require Import ZArith Ascii String List Permutation Lia.
From stdpp Require Import base option gmap strings list fin_maps.

Local Open Scope string_scope.
Local Open Scope Z_scope.
Local Open Scope list_scope.

(** ** Bytes and strings of the Go runtime *)

Definition LF : string := String "010"%char EmptyString.
Definition DQUOTE : string := String "034"%char EmptyString.

Definition len (s : string) : Z := Z.of_nat (String.length s).

(** [strings.Split(s, sep)] for a separator [sep] of one byte, the only
    kind the program uses: the pieces between the occurrences of [sep],
    one more piece than there are occurrences. *)
Fixpoint strings_Split (s : string) (sep : ascii) : list string :=
  match s with
  | EmptyString => [EmptyString]
  | String c s' =>
      if Ascii.eqb c sep then EmptyString :: strings_Split s' sep
      else match strings_Split s' sep with
           | [] => [String c EmptyString]
           | w :: ws => String c w :: ws
           end
  end.

(** [strings.HasPrefix(s, p)]. *)
Fixpoint strings_HasPrefix (s p : string) {struct p} : bool :=
  match p, s with
  | EmptyString, _ => true
  | String _ _, EmptyString => false
  | String a p', String b s' => Ascii.eqb a b && strings_HasPrefix s' p'
  end.

(** [strings.Contains(s, substr)]. *)
Fixpoint strings_Contains (s substr : string) : bool :=
  strings_HasPrefix s substr ||
  match s with
  | EmptyString => false
  | String _ s' => strings_Contains s' substr
  end.

(** [strings.TrimPrefix(s, p)]. *)
Definition strings_TrimPrefix (s p : string) : string :=
  if strings_HasPrefix s p
  then substring (String.length p) (String.length s - String.length p) s
  else s.

(** [strings.HasSuffix(s, suffix)]. *)
Definition strings_HasSuffix (s suffix : string) : bool :=
  (String.length suffix <=? String.length s)%nat &&
  String.eqb (substring (String.length s - String.length suffix)
                        (String.length suffix) s) suffix.

(** [ast.IsExported(name)]: the name begins with an upper-case letter.
    Identifiers are taken to start with an ASCII byte. *)
Definition ast_IsExported (name : string) : bool :=
  match name with
  | EmptyString => false
  | String c _ => (65 <=? nat_of_ascii c)%nat && (nat_of_ascii c <=? 90)%nat
  end.

(** ** Results of fallible calls *)

(** Where an error value comes from: the library call that produced it. *)
Inductive ErrSource : Type :=
| FromAbs            (* filepath.Abs *)
| FromReadDir        (* parser.ParseDir, reading the directory *)
| FromParseFile      (* parser.ParseDir / parser.ParseFile, a syntax error *)
| FromReadFile       (* ioutil.ReadFile *)
| FromTemplateParse  (* template.Parse *)
| FromTemplateExec   (* template.Execute *)
| FromFormat         (* format.Source *)
| FromMkdirAll       (* os.MkdirAll *)
| FromWriteFile.     (* ioutil.WriteFile *)

Record Error : Type := mkError { err_source : ErrSource; err_Error : string }.

Inductive Res (A : Type) : Type :=
| Ok (a : A)
| Err (e : Error)
| Panic.
Arguments Ok {A} a.
Arguments Err {A} e.
Arguments Panic {A}.

Global Instance Res_ret : MRet Res := fun A a => Ok a.
Global Instance Res_bind : MBind Res := fun A B k r =>
  match r with
  | Ok a => k a
  | Err e => Err e
  | Panic => Panic
  end.

(** A loop whose body may fail: the first failure ends the loop. *)
Fixpoint loopM {A S : Type} (f : S -> A -> Res S) (l : list A) (s : S) : Res S :=
  match l with
  | [] => Ok s
  | x :: l' => s' ← f s x; loopM f l' s'
  end.

Fixpoint eachM {A B : Type} (f : A -> Res B) (l : list A) : Res (list B) :=
  match l with
  | [] => Ok []
  | x :: l' => y ← f x; ys ← eachM f l'; Ok (y :: ys)
  end.

(** A slice expression [src[lo:hi]] on bytes; out of range is a run-time
    panic.  The capacity of [src] is taken to be its length. *)
Definition slice (src : string) (lo hi : Z) : Res string :=
  if (0 <=? lo) && (lo <=? hi) && (hi <=? len src)
  then Ok (substring (Z.to_nat lo) (Z.to_nat (hi - lo)) src)
  else Panic.

(** An index expression [l[i]]. *)
Definition at_index {A : Type} (l : list A) (i : Z) : Res A :=
  if 0 <=? i then
    match nth_error l (Z.to_nat i) with
    | Some a => Ok a
    | None => Panic
    end
  else Panic.

(** ** The order of [range] over a map

    Go leaves the order in which [range] visits a map unspecified.  A run
    fixes, for every loop of the program, an order on the keys; the loop
    visits the entries along it. *)
Inductive Loop : Type :=
| LoopGenCode        (* genCode: range subpkgs *)
| LoopSubpackages    (* getSubpackages: range subpkgs *)
| LoopStructMethods  (* getStructs: range methods *)
| LoopStructFields   (* getStructs: range fields *)
| LoopStructMap      (* getStructs: range structMap *)
| LoopMethodFiles    (* getMethods: range pkg.Files *)
| LoopFieldFiles     (* getFields: range pkg.Files *)
| LoopMainIface      (* main: range ifacePkgs *)
| LoopMainImpl.      (* main: range implPkgs *)

Definition Sched : Type := Loop -> string -> string -> bool.

Fixpoint insert_by {V : Type} (before : string -> string -> bool)
    (kv : string * V) (l : list (string * V)) : list (string * V) :=
  match l with
  | [] => [kv]
  | x :: l' => if before (fst kv) (fst x) then kv :: l else x :: insert_by before kv l'
  end.

Definition order_by {V : Type} (before : string -> string -> bool)
    (l : list (string * V)) : list (string * V) :=
  foldr (insert_by before) [] l.

Definition range {V : Type} (sch : Sched) (site : Loop) (m : gmap string V)
    : list (string * V) :=
  order_by (sch site) (map_to_list m).

(** ** The data model of the program *)

(** [type Field struct { Name string; Type string }] *)
Record Field : Type := mkField { Field_Name : string; Field_Type : string }.

(** [type Method struct { Name string; Params []*Field; Results []*Field }] *)
Record Method : Type := mkMethod {
  Method_Name : string;
  Method_Params : list Field;
  Method_Results : list Field
}.

(** ** The syntax trees of [go/ast]

    Only the node kinds that the program tells apart are kept apart: a
    struct type, a field of a field list, a function declaration.  Every
    other node is an [OtherExpr] with the nodes below it.  [Pos] and [End]
    are [token.Pos] values. *)
#[local] Unset Elimination Schemes.
Inductive Expr : Type :=
| StructType (Pos End : Z) (Fields : list AstField)
| OtherExpr (Pos End : Z) (children : list Expr)
with AstField : Type :=
| mkAstField (Names : list string) (Type_ : Expr).
#[local] Set Elimination Schemes.

Definition Expr_Pos (e : Expr) : Z :=
  match e with StructType p _ _ => p | OtherExpr p _ _ => p end.
Definition Expr_End (e : Expr) : Z :=
  match e with StructType _ e _ => e | OtherExpr _ e _ => e end.
Definition AstField_Names (f : AstField) : list string :=
  match f with mkAstField ns _ => ns end.
Definition AstField_Type (f : AstField) : Expr :=
  match f with mkAstField _ t => t end.

(** An [*ast.StructType] node: its position and its field list. *)
Record StructTypeNode : Type := mkStructTypeNode {
  st_Pos : Z;
  st_Fields : list AstField
}.

(** [*ast.FuncDecl]: [Recv] is [None] for a function, [Results] is [None]
    when the signature has no result list; [Body] holds the expressions
    of the body. *)
Record FuncDecl : Type := mkFuncDecl {
  fd_Recv : option (list AstField);
  fd_Name : string;
  fd_Params : list AstField;
  fd_Results : option (list AstField);
  fd_Body : list Expr
}.

Inductive Decl : Type :=
| DeclFunc (fd : FuncDecl)
| DeclGen (specs : list Expr).

(** [*ast.File] and [*ast.Package]. *)
Record AstFile : Type := mkAstFile { File_Name : string; File_Decls : list Decl }.
Record AstPackage : Type := mkAstPackage {
  AstPackage_Name : string;
  AstPackage_Files : gmap string AstFile
}.

(** [type Struct struct { Name string; Methods []*Method; Fields []*Field;
    Parent *ast.StructType }] *)
Record Struct : Type := mkStruct {
  Struct_Name : string;
  Struct_Methods : list Method;
  Struct_Fields : list Field;
  Struct_Parent : option StructTypeNode
}.

(** [type Function struct { Name, ImportPath string; Parameters, Results []*Field }] *)
Record Function : Type := mkFunction {
  Function_Name : string;
  Function_ImportPath : string;
  Function_Parameters : list Field;
  Function_Results : list Field
}.

(** [type Package struct { Name string; Structs []*Struct;
    Functions []*Function; ImportPath string }] *)
Record Package : Type := mkPackage {
  Package_Name : string;
  Package_Structs : list Struct;
  Package_Functions : list Function;
  Package_ImportPath : string
}.

(** The struct types that [ast.Inspect] meets below a node, in the order
    of its depth-first walk. *)
Fixpoint Inspect_Expr (e : Expr) : list StructTypeNode :=
  match e with
  | StructType p _ fields =>
      mkStructTypeNode p fields ::
      flat_map (fun f => match f with mkAstField _ t => Inspect_Expr t end) fields
  | OtherExpr _ _ children => flat_map Inspect_Expr children
  end.

Definition Inspect_FieldList (l : list AstField) : list StructTypeNode :=
  flat_map (fun f => Inspect_Expr (AstField_Type f)) l.

Definition Inspect_Decl (d : Decl) : list StructTypeNode :=
  match d with
  | DeclFunc fd =>
      Inspect_FieldList (default [] (fd_Recv fd)) ++
      Inspect_FieldList (fd_Params fd) ++
      Inspect_FieldList (default [] (fd_Results fd)) ++
      flat_map Inspect_Expr (fd_Body fd)
  | DeclGen specs => flat_map Inspect_Expr specs
  end.

Definition Inspect_File (f : AstFile) : list StructTypeNode :=
  flat_map Inspect_Decl (File_Decls f).

(** ** The environment of a run *)

(** The four templates of the program. *)
Inductive Template : Type :=
| TmplIface      (* buildIfaces: iface *)
| TmplImpl       (* buildImpls: impl *)
| TmplIfacePkg   (* genCode: ifaceTmpl *)
| TmplImplPkg.   (* genCode: implTmpl *)

(** What the standard library and the operating system answer.  A failing
    call answers [inr msg] or [Some msg], [msg] being the text of the
    error.  [getFields] parses every file a second time and keeps the
    error only: [parser_ParseFile_again] is that error. *)
Record Env : Type := mkEnv {
  GOPATH : string;                                  (* os.Getenv *)
  path_Join : list string -> string;                (* path.Join, filepath.Join *)
  filepath_Abs : string -> string + string;
  os_ReadDir : string -> list string + string;      (* the files of a directory *)
  parser_ParseFile : string -> AstFile + string;
  parser_ParseFile_again : string -> option string; (* in getFields: its error *)
  ioutil_ReadFile : string -> string + string;
  template_Parse : Template -> option string;
  template_callError : string -> string;            (* by function name *)
  format_Source : string -> string + string;
  os_MkdirAll : string -> option string;
  ioutil_WriteFile : string -> string -> option string
}.

Definition lift {A : Type} (src : ErrSource) (r : A + string) : Res A :=
  match r with
  | inl a => Ok a
  | inr msg => Err (mkError src msg)
  end.

Definition check (src : ErrSource) (r : option string) : Res unit :=
  match r with
  | None => Ok tt
  | Some msg => Err (mkError src msg)
  end.

(** A parsed file joins the package of its name, under its file name. *)
Definition ParseDir_add (pkgs : gmap string AstPackage) (filename : string)
    (src : AstFile) : gmap string AstPackage :=
  let name := File_Name src in
  match pkgs !! name with
  | Some pkg =>
      <[name := mkAstPackage name (<[filename := src]> (AstPackage_Files pkg))]> pkgs
  | None => <[name := mkAstPackage name {[filename := src]}]> pkgs
  end.

(** [parser.ParseDir(fset, path, filter, mode)]: the files of the
    directory whose name ends in [.go] and passes [filter] are parsed and
    grouped by package name; the first syntax error is returned. *)
Definition parser_ParseDir (env : Env) (path : string) (filter : string -> bool)
    : Res (gmap string AstPackage) :=
  list ← lift FromReadDir (os_ReadDir env path);
  let '(pkgs, first) :=
    fold_left (fun '(pkgs, first) d =>
      if strings_HasSuffix d ".go" && filter d then
        let filename := path_Join env [path; d] in
        match parser_ParseFile env filename with
        | inl src => (ParseDir_add pkgs filename src, first)
        | inr msg => (pkgs, match first with None => Some msg | Some _ => first end)
        end
      else (pkgs, first)) list (∅, None) in
  match first with
  | None => Ok pkgs
  | Some msg => Err (mkError FromParseFile msg)
  end.

(** [maker.GetReceiverTypeName(src, decl)] of the ifacemaker library the
    program imports: for a method declaration, the source text of the
    receiver type without a leading star, and the declaration; for any
    other declaration the empty string and nil. *)
Definition GetReceiverTypeName (src : string) (decl : Decl)
    : Res (string * option FuncDecl) :=
  match decl with
  | DeclGen _ => Ok (EmptyString, None)
  | DeclFunc fd =>
      match fd_Recv fd with
      | None => Ok (EmptyString, None)
      | Some recv =>
          f ← at_index recv 0;
          let t := AstField_Type f in
          st ← slice src (Expr_Pos t - 1) (Expr_End t - 1);
          match st with
          | String "*" st' => Ok (st', Some fd)
          | _ => Ok (st, Some fd)
          end
      end
  end.

(** The line feeds among the first [n] bytes of [s]. *)
Fixpoint count_LF (n : nat) (s : string) : Z :=
  match n, s with
  | S n', String c s' => (if Ascii.eqb c "010" then 1 else 0) + count_LF n' s'
  | _, _ => 0
  end.

(** [fset.Position(p).Line] in a file set that holds one file, of
    content [src] and without line directives: the line of offset
    [p - 1], or 0 when [p] is not a position of the file. *)
Definition Position_Line (src : string) (p : Z) : Z :=
  if (1 <=? p) && (p <=? 1 + len src)
  then 1 + count_LF (Z.to_nat (p - 1)) src
  else 0.

(** ** Shape extraction *)

(** The filter that [parsePkg] hands to [parser.ParseDir], on the name of
    a file. *)
Definition parsePkg_filter (name : string) : bool :=
  negb (strings_Contains name "test").

(** [func parsePkg(pkg string) (map[string]*ast.Package, error)] *)
Definition parsePkg (env : Env) (pkg : string) : Res (gmap string AstPackage) :=
  let pkg := path_Join env [GOPATH env; "src"; pkg] in
  parser_ParseDir env pkg parsePkg_filter.

(** [func getFunctions(pkg *ast.Package) ([]*Function, error)] *)
Definition getFunctions (pkg : AstPackage) : Res (list Function) := Ok [].

(** The text of a type expression: [string(src[t.Pos()-1 : t.End()-1])]. *)
Definition typeText (src : string) (t : Expr) : Res string :=
  slice src (Expr_Pos t - 1) (Expr_End t - 1).

(** [func getMethodFields(src []byte, astFields []*ast.Field) []*Field] *)
Definition getMethodFields (src : string) (astFields : list AstField)
    : Res (list Field) :=
  loopM (fun fields astField =>
    let name :=
      match AstField_Names astField with
      | n :: _ => n
      | [] => EmptyString
      end in
    typ ← typeText src (AstField_Type astField);
    Ok (fields ++ [mkField name typ])) astFields [].

(** The body of the inner loop of [getMethods], for one declaration. *)
Definition getMethods_decl (env : Env) (fileName : string)
    (methodMap : gmap string (list Method)) (decl : Decl)
    : Res (gmap string (list Method)) :=
  match ioutil_ReadFile env fileName with
  | inr _ => Ok methodMap
  | inl src =>
      '(a, fd) ← GetReceiverTypeName src decl;
      match fd with
      | Some fd =>
          if ast_IsExported (fd_Name fd) then
            let methods := default [] (methodMap !! a) in
            params ← getMethodFields src (fd_Params fd);
            results ← match fd_Results fd with
                      | Some l => getMethodFields src l
                      | None => Ok []
                      end;
            let methods := methods ++ [mkMethod (fd_Name fd) params results] in
            Ok (<[a := methods]> methodMap)
          else Ok methodMap
      | None => Ok methodMap
      end
  end.

(** [func getMethods(pkg *ast.Package) (map[string][]*Method, error)] *)
Definition getMethods (sch : Sched) (env : Env) (pkg : AstPackage)
    : Res (gmap string (list Method)) :=
  loopM (fun methodMap '(fileName, astFile) =>
           loopM (getMethods_decl env fileName) (File_Decls astFile) methodMap)
        (range sch LoopMethodFiles (AstPackage_Files pkg)) ∅.

(** [func getStructName(src []byte, fset *token.FileSet, st *ast.StructType) string];
    the file set is the one of the file just parsed again, of content [src]. *)
Definition getStructName (src : string) (st : StructTypeNode) : Res string :=
  let lines := strings_Split src "010" in
  line ← at_index lines (Position_Line src (st_Pos st) - 1);
  at_index (strings_Split line " ") 1.

(** The loop of [getFields] over the fields of one struct type. *)
Definition getFields_exported (src : string) (fields : list AstField)
    : Res (list Field) :=
  loopM (fun exportedFields astField =>
    match AstField_Names astField with
    | n :: _ =>
        if ast_IsExported n then
          typ ← typeText src (AstField_Type astField);
          Ok (exportedFields ++ [mkField n typ])
        else Ok exportedFields
    | [] => Ok exportedFields
    end) fields [].

(** The function that [getFields] hands to [ast.Inspect], at a struct type. *)
Definition getFields_visit (src : string) (fieldMap : gmap string (list Field))
    (st : StructTypeNode) : Res (gmap string (list Field)) :=
  structName ← getStructName src st;
  if ast_IsExported structName then
    exportedFields ← getFields_exported src (st_Fields st);
    Ok (<[structName := exportedFields]> fieldMap)
  else Ok fieldMap.

(** The body of the loop of [getFields], for one file. *)
Definition getFields_file (env : Env) (fieldMap : gmap string (list Field))
    (file : string * AstFile) : Res (gmap string (list Field)) :=
  let '(fileName, astFile) := file in
  match ioutil_ReadFile env fileName with
  | inr _ => Ok fieldMap
  | inl src =>
      _ ← check FromParseFile (parser_ParseFile_again env fileName);
      loopM (getFields_visit src) (Inspect_File astFile) fieldMap
  end.

(** [func getFields(pkg *ast.Package) (map[string][]*Field, error)] *)
Definition getFields (sch : Sched) (env : Env) (pkg : AstPackage)
    : Res (gmap string (list Field)) :=
  loopM (getFields_file env) (range sch LoopFieldFiles (AstPackage_Files pkg)) ∅.

(** The body of the first loop of [getStructs]: a struct for every
    receiver of [methods]. *)
Definition getStructs_methods (structMap : gmap string Struct)
    (e : string * list Method) : gmap string Struct :=
  let '(st, stmethods) := e in
  <[st := mkStruct st stmethods [] None]> structMap.

(** The body of the second loop of [getStructs]: the fields go to the
    struct of their name.  Where [structMap] has none, a struct is built
    and dropped: it is never stored in [structMap]. *)
Definition getStructs_fields (structMap : gmap string Struct)
    (e : string * list Field) : gmap string Struct :=
  let '(stName, stfields) := e in
  match structMap !! stName with
  | None => structMap
  | Some st =>
      <[stName := mkStruct (Struct_Name st) (Struct_Methods st) stfields
                           (Struct_Parent st)]> structMap
  end.

(** [func getStructs(pkg *ast.Package) ([]*Struct, error)] *)
Definition getStructs (sch : Sched) (env : Env) (pkg : AstPackage)
    : Res (list Struct) :=
  methods ← getMethods sch env pkg;
  fields ← getFields sch env pkg;
  let structMap :=
    fold_left getStructs_methods (range sch LoopStructMethods methods) ∅ in
  let structMap :=
    fold_left getStructs_fields (range sch LoopStructFields fields) structMap in
  Ok (map snd (range sch LoopStructMap structMap)).

(** The body of the loop of [getSubpackages], for one package of the
    directory. *)
Definition getSubpackages_subpkg (sch : Sched) (env : Env) (pkg : string)
    (subpkgMap : gmap string Package) (e : string * AstPackage)
    : Res (gmap string Package) :=
  let '(subpkgName, subpkg) := e in
  structs ← getStructs sch env subpkg;
  funcs ← getFunctions subpkg;
  Ok (<[subpkgName := mkPackage subpkgName structs funcs pkg]> subpkgMap).

(** [func getSubpackages(pkg string) (map[string]*Package, error)] *)
Definition getSubpackages (sch : Sched) (env : Env) (pkg : string)
    : Res (gmap string Package) :=
  subpkgs ← parsePkg env pkg;
  loopM (getSubpackages_subpkg sch env pkg) (range sch LoopSubpackages subpkgs) ∅.

(** ** Rendering

    A template of [text/template] is embedded as the function from its
    data to the text that [Execute] writes: the text between the actions
    is copied, an action prints its value, a [range] prints its body once
    for each element. *)

(** The texts of a list, one after the other. *)
Definition writeAll (l : list string) : string := foldr String.append EmptyString l.

(** A function of a template's [FuncMap] that panics makes [Execute]
    return an error. *)
Definition call (env : Env) (name : string) (r : Res string) : Res string :=
  match r with
  | Panic => Err (mkError FromTemplateExec (template_callError env name))
  | _ => r
  end.

(** The function [toList] of the [FuncMap] of [buildIfaces]. *)
Definition buildIfaces_toList (fields : list Field) : string :=
  fst (fold_left (fun '(list, prefix) field =>
         (list +:+ prefix +:+ Field_Name field +:+ " " +:+ Field_Type field, ", "))
       fields (EmptyString, EmptyString)).

(** The template [iface] of [buildIfaces], executed on a [*Struct]. *)
Definition iface_field (field : Field) : string :=
  LF +:+ "    " +:+ Field_Name field +:+ "() " +:+ Field_Type field +:+ LF.

Definition iface_method (method : Method) : string :=
  LF +:+ "    " +:+ Method_Name method +:+
  "(" +:+ buildIfaces_toList (Method_Params method) +:+
  ") (" +:+ buildIfaces_toList (Method_Results method) +:+ ")" +:+ LF.

Definition iface_Execute (st : Struct) : Res string :=
  Ok (LF +:+ "type " +:+ Struct_Name st +:+ " interface {" +:+ LF +:+
      writeAll (map iface_field (Struct_Fields st)) +:+
      LF +:+ LF +:+
      writeAll (map iface_method (Struct_Methods st)) +:+
      LF +:+ "}" +:+ LF).

(** [func buildIfaces(pkg *Package) ([]string, error)] *)
Definition buildIfaces (env : Env) (pkg : Package) : Res (list string) :=
  _ ← check FromTemplateParse (template_Parse env TmplIface);
  loopM (fun ifaces st =>
           buf ← iface_Execute st;
           Ok (ifaces ++ [buf])) (Package_Structs pkg) [].

(** [func pkgContainsType(pkg *Package, typ string) bool] *)
Definition pkgContainsType (pkg : Package) (typ : string) : bool :=
  (fix loop (structs : list Struct) : bool :=
     match structs with
     | [] => false
     | st :: structs' =>
         if String.eqb (Struct_Name st) typ then true else loop structs'
     end) (Package_Structs pkg).

(** [func maybeAddIfacePkg(pkg *Package, typ string) string]; [typ[0]]
    panics on the empty string. *)
Definition maybeAddIfacePkg (pkg : Package) (typ : string) : Res string :=
  match typ with
  | EmptyString => Panic
  | String c typ' =>
      let isPtr := Ascii.eqb c "*" in
      let typ := if isPtr then typ' else typ in
      let typ := if pkgContainsType pkg typ
                 then Package_Name pkg +:+ "iface." +:+ typ
                 else typ in
      let typ := if isPtr then "*" +:+ typ else typ in
      Ok typ
  end.

(** The closures [toList] and [argList] of [buildImpls]. *)
Definition buildImpls_toList (pkg : Package) (fields : list Field) : Res string :=
  r ← loopM (fun '(list, prefix) field =>
               typ ← maybeAddIfacePkg pkg (Field_Type field);
               Ok (list +:+ prefix +:+ Field_Name field +:+ " " +:+ typ, ", "))
            fields (EmptyString, EmptyString);
  Ok (fst r).

Definition buildImpls_argList (fields : list Field) : string :=
  fst (fold_left (fun '(args, prefix) field =>
         (args +:+ prefix +:+ Field_Name field, ", "))
       fields (EmptyString, EmptyString)).

(** The data that [buildImpls] hands to its template. *)
Record ImplData : Type := mkImplData {
  PkgName : string;
  StructName : string;
  Fields : list Field;
  Methods : list Method
}.

(** The template [impl] of [buildImpls]. *)
Definition impl_field (env : Env) (pkg : Package) (data : ImplData) (field : Field)
    : Res string :=
  typ ← call env "maybeAddIfacePkg" (maybeAddIfacePkg pkg (Field_Type field));
  Ok (LF +:+ "func (x *" +:+ StructName data +:+ ")" +:+ Field_Name field +:+
      "() (" +:+ typ +:+ ") {" +:+ LF +:+
      "    return x.parent." +:+ Field_Name field +:+ LF +:+
      "}" +:+ LF).

Definition impl_method (env : Env) (pkg : Package) (data : ImplData) (method : Method)
    : Res string :=
  params ← call env "toList" (buildImpls_toList pkg (Method_Params method));
  results ← call env "toList" (buildImpls_toList pkg (Method_Results method));
  Ok (LF +:+ "func (x *" +:+ StructName data +:+ ") " +:+ Method_Name method +:+
      "(" +:+ params +:+ ") (" +:+ results +:+ ") {" +:+ LF +:+
      "    return x.parent." +:+ Method_Name method +:+
      "(" +:+ buildImpls_argList (Method_Params method) +:+ ")" +:+ LF +:+
      "}" +:+ LF).

Definition impl_Execute (env : Env) (pkg : Package) (data : ImplData) : Res string :=
  fields ← eachM (impl_field env pkg data) (Fields data);
  methods ← eachM (impl_method env pkg data) (Methods data);
  Ok (LF +:+ "type " +:+ StructName data +:+ " struct {" +:+ LF +:+
      "    parent *" +:+ PkgName data +:+ "." +:+ StructName data +:+ LF +:+
      "}" +:+ LF +:+ LF +:+
      writeAll fields +:+
      LF +:+ LF +:+
      writeAll methods +:+
      LF).

(** [func buildImpls(pkg *Package) ([]string, error)] *)
Definition buildImpls (env : Env) (pkg : Package) : Res (list string) :=
  _ ← check FromTemplateParse (template_Parse env TmplImpl);
  loopM (fun impls st =>
           buf ← impl_Execute env pkg
                   (mkImplData (Package_Name pkg) (Struct_Name st)
                               (Struct_Fields st) (Struct_Methods st));
           Ok (impls ++ [buf])) (Package_Structs pkg) [].

(** The templates [ifaceTmpl] and [implTmpl] of [genCode].  They print
    strings only, so [Execute] has no error to return. *)
Definition ifaceTmpl_Execute (Name : string) (Interfaces : list string) : string :=
  LF +:+ "// Auto generated code DO NOT EDIT" +:+ LF +:+
  "package " +:+ Name +:+ "iface" +:+ LF +:+ LF +:+
  writeAll (map (fun iface => LF +:+ iface +:+ LF) Interfaces) +:+
  LF.

Definition implTmpl_Execute (Name : string) (Implementations : list string)
    (ImportPath BasePkg : string) : string :=
  LF +:+ "// Auto generated code DO NOT EDIT" +:+ LF +:+
  "package " +:+ Name +:+ LF +:+ LF +:+
  "import " +:+ DQUOTE +:+ ImportPath +:+ DQUOTE +:+ LF +:+
  "import " +:+ DQUOTE +:+ BasePkg +:+ "/" +:+ Name +:+ "iface" +:+ DQUOTE +:+ LF +:+ LF +:+
  writeAll (map (fun impl => LF +:+ impl +:+ LF) Implementations) +:+
  LF.

(** The body of the loop of [genCode], for one sub-package.  The error
    of each of its two calls of [Execute] is assigned and overwritten by
    the next call, untested. *)
Definition genCode_subpkg (env : Env) (basePkg : string)
    (maps : gmap string string * gmap string string) (e : string * Package)
    : Res (gmap string string * gmap string string) :=
  let '(ifacePkgsMap, implPkgsMap) := maps in
  let '(subpkgName, subpkg) := e in
  ifaces ← buildIfaces env subpkg;
  _ ← check FromTemplateParse (template_Parse env TmplIfacePkg);
  let ifacePkgBuf := ifaceTmpl_Execute subpkgName ifaces in
  ifacePkg ← lift FromFormat (format_Source env ifacePkgBuf);
  impls ← buildImpls env subpkg;
  _ ← check FromTemplateParse (template_Parse env TmplImplPkg);
  let implPkgBuf :=
    implTmpl_Execute subpkgName impls (Package_ImportPath subpkg) basePkg in
  implPkg ← lift FromFormat (format_Source env implPkgBuf);
  Ok (<[subpkgName +:+ "iface" := ifacePkg]> ifacePkgsMap,
      <[subpkgName := implPkg]> implPkgsMap).

(** [func genCode(pkgPath string, basePkg string)
      (map[string]string, map[string]string, error)] *)
Definition genCode (sch : Sched) (env : Env) (pkgPath basePkg : string)
    : Res (gmap string string * gmap string string) :=
  subpkgs ← getSubpackages sch env pkgPath;
  loopM (genCode_subpkg env basePkg) (range sch LoopGenCode subpkgs) (∅, ∅).

(** ** The command *)

(** What a run does to the outside, in order. *)
Inductive Event : Type :=
| Stderr_Fprintln (s : string)        (* fmt.Fprintln(os.Stderr, s) *)
| Stderr_Fprintf (format : string)    (* fmt.Fprintf(os.Stderr, format) *)
| MkdirAll (path : string)            (* os.MkdirAll(path, os.ModePerm) *)
| WriteFile (path data : string).     (* ioutil.WriteFile(path, data, os.ModePerm) *)

(** How a run ends: [os.Exit(code)], a return from [main] being
    [Exit 0], or a panic. *)
Inductive Exit : Type :=
| ExitCode (code : Z)
| Crash.

(** The two loops of [main] over the generated packages have the same
    body: the directory is made, then the file is written; the first
    error ends the loop. *)
Fixpoint main_write (env : Env) (out : string) (pkgs : list (string * string))
    : list Event * option Error :=
  match pkgs with
  | [] => ([], None)
  | (pkgName, pkg) :: pkgs' =>
      let pkgPath := path_Join env [out; pkgName] in
      match os_MkdirAll env pkgPath with
      | Some msg => ([MkdirAll pkgPath], Some (mkError FromMkdirAll msg))
      | None =>
          let pkgFile := path_Join env [pkgPath; pkgName +:+ ".go"] in
          match ioutil_WriteFile env pkgFile pkg with
          | Some msg =>
              ([MkdirAll pkgPath; WriteFile pkgFile pkg],
               Some (mkError FromWriteFile msg))
          | None =>
              let '(evs, r) := main_write env out pkgs' in
              (MkdirAll pkgPath :: WriteFile pkgFile pkg :: evs, r)
          end
      end
  end.

(** The calls of [main] after the flags have been read, up to the first
    error: what they have done to the outside, and the error. *)
Definition main_steps (sch : Sched) (env : Env) (in_ out : string)
    : list Event * Res unit :=
  match filepath_Abs env out with
  | inr msg => ([], Err (mkError FromAbs msg))
  | inl absOut =>
      let out := absOut in
      let basePkg :=
        strings_TrimPrefix out (path_Join env [GOPATH env; "src"] +:+ "/") in
      match genCode sch env in_ basePkg with
      | Panic => ([], Panic)
      | Err err => ([], Err err)
      | Ok (ifacePkgs, implPkgs) =>
          match main_write env out (range sch LoopMainIface ifacePkgs) with
          | (evs, Some err) => (evs, Err err)
          | (evs, None) =>
              match main_write env out (range sch LoopMainImpl implPkgs) with
              | (evs', Some err) => (evs ++ evs', Err err)
              | (evs', None) => (evs ++ evs', Ok tt)
              end
          end
      end
  end.

(** [func main()]; [in_] and [out] are the values of the flags [-input]
    and [-output].  Every [if err != nil] of [main] has the same body,
    [fmt.Fprintf(os.Stderr, err.Error()); os.Exit(1)]. *)
Definition main (sch : Sched) (env : Env) (in_ out : string) : list Event * Exit :=
  if String.eqb in_ EmptyString then
    ([Stderr_Fprintln "Require a package name"], ExitCode 1)
  else
    match main_steps sch env in_ out with
    | (evs, Err err) => (evs ++ [Stderr_Fprintf (err_Error err)], ExitCode 1)
    | (evs, Panic) => (evs, Crash)
    | (evs, Ok _) => (evs, ExitCode 0)
    end.

(** [fmt.Sprintf(format)] without operands, for the formats in which a
    percent sign is followed by a percent sign, by a letter, or by nothing;
    flags, widths, precisions and argument indexes are left out ([None]).
    A verb that finds no operand prints as [%!verb(MISSING)]. *)
Definition is_letter (c : ascii) : bool :=
  let n := nat_of_ascii c in
  ((65 <=? n) && (n <=? 90) || (97 <=? n) && (n <=? 122))%nat.

Fixpoint fmt_Sprintf (format : string) : option string :=
  match format with
  | EmptyString => Some EmptyString
  | String c rest =>
      if Ascii.eqb c "%" then
        match rest with
        | EmptyString => Some "%!(NOVERB)"
        | String verb rest' =>
            if Ascii.eqb verb "%" then
              s ← fmt_Sprintf rest'; Some ("%" +:+ s)
            else if is_letter verb then
              s ← fmt_Sprintf rest'; Some ("%!" +:+ String verb "(MISSING)" +:+ s)
            else None
        end
      else s ← fmt_Sprintf rest; Some (String c s)
  end.

(** The bytes that a run has written to standard error. *)
Fixpoint stderr (evs : list Event) : option string :=
  match evs with
  | [] => Some EmptyString
  | Stderr_Fprintln s :: evs' => t ← stderr evs'; Some (s +:+ LF +:+ t)
  | Stderr_Fprintf format :: evs' =>
      s ← fmt_Sprintf format; t ← stderr evs'; Some (s +:+ t)
  | _ :: evs' => stderr evs'
  end.

(** ** Files that [parsePkg] leaves out *)

(** The environment in which the directories do not list [name]. *)
Definition without_file (name : string) (env : Env) : Env :=
  mkEnv (GOPATH env) (path_Join env) (filepath_Abs env)
        (fun dir =>
           match os_ReadDir env dir with
           | inl l => inl (List.filter (fun n => negb (String.eqb n name)) l)
           | inr msg => inr msg
           end)
        (parser_ParseFile env) (parser_ParseFile_again env) (ioutil_ReadFile env)
        (template_Parse env)
        (template_callError env) (format_Source env) (os_MkdirAll env)
        (ioutil_WriteFile env).

(** ** Declarations that list several names *)

(** The declaration with its first name only. *)
Definition first_name_only (f : AstField) : AstField :=
  mkAstField (match AstField_Names f with
              | n :: _ => [n]
              | [] => []
              end) (AstField_Type f).

(** The name that stands first in a declaration, empty when there is none. *)
Definition first_name (f : AstField) : string :=
  match AstField_Names f with
  | n :: _ => n
  | [] => EmptyString
  end.

(** What a field of a shape records of a declaration: its first name and
    the text of its type. *)
Definition records (src : string) (a : AstField) (f : Field) : Prop :=
  Field_Name f = first_name a /\
  typeText src (AstField_Type a) = Ok (Field_Type f).

(** ** The name of a struct type *)

(** The byte [c] occurs in [s]. *)
Fixpoint has_byte (c : ascii) (s : string) : bool :=
  match s with
  | EmptyString => false
  | String d s' => Ascii.eqb d c || has_byte c s'
  end.

(** ** A package to run the program on

    The directory [/go/src/p] holds the file [a.go] below, the file
    [latest.go] and the file [a_test.go]. *)

Definition TAB : string := String "009" EmptyString.

(** [a.go]: a struct with three declarations of fields and a method, and
    an unexported struct with an exported method. *)
Definition ex_src : string :=
  "package p" +:+ LF +:+
  "type S struct {" +:+ LF +:+
  TAB +:+ "A, B int" +:+ LF +:+
  TAB +:+ "c string" +:+ LF +:+
  TAB +:+ "Next *S" +:+ LF +:+
  "}" +:+ LF +:+
  "func (s *S) Get(o S, l []S) *S { return nil }" +:+ LF +:+
  "type foo struct{}" +:+ LF +:+
  "func (f foo) Bar() {}" +:+ LF.

Definition ident (p e : Z) : Expr := OtherExpr p e [].
Definition star (p e : Z) : Expr := OtherExpr p e [ident (p + 1) e].

Definition ex_struct_S : StructTypeNode :=
  mkStructTypeNode 18
    [mkAstField ["A"; "B"] (ident 33 36); mkAstField ["c"] (ident 40 46);
     mkAstField ["Next"] (star 53 55)].

Definition ex_file : AstFile :=
  mkAstFile "p"
    [ DeclGen [OtherExpr 16 57 [StructType 18 57 (st_Fields ex_struct_S)]];
      DeclFunc (mkFuncDecl (Some [mkAstField ["s"] (star 66 68)]) "Get"
                  [mkAstField ["o"] (ident 76 77);
                   mkAstField ["l"] (OtherExpr 81 84 [ident 83 84])]
                  (Some [mkAstField [] (star 86 88)]) []);
      DeclGen [OtherExpr 109 121 [StructType 113 121 []]];
      DeclFunc (mkFuncDecl (Some [mkAstField ["f"] (ident 130 133)]) "Bar"
                  [] None []) ].

(** [latest.go]: a struct type that stands on a line of its own. *)
Definition ex_src_latest : string :=
  "package p" +:+ LF +:+
  "var xs = []interface{}{" +:+ LF +:+
  TAB +:+ "struct{}{}," +:+ LF +:+
  "}" +:+ LF.

Definition ex_struct_anon : StructTypeNode := mkStructTypeNode 36 [].

Definition ex_file_latest : AstFile :=
  mkAstFile "p"
    [ DeclGen [OtherExpr 15 48
                 [OtherExpr 20 48 [OtherExpr 36 46 [StructType 36 44 []]]]] ].

(** [path.Join] on clean, non-empty elements. *)
Definition ex_Join (elem : list string) : string :=
  foldr (fun a b => match b with
                    | EmptyString => a
                    | _ => a +:+ "/" +:+ b
                    end) EmptyString elem.

Definition ex_env : Env :=
  {| GOPATH := "/go";
     path_Join := ex_Join;
     filepath_Abs := fun p => inl p;
     os_ReadDir := fun dir =>
       if String.eqb dir "/go/src/p" then inl ["a.go"; "a_test.go"; "latest.go"]
       else inr ("open " +:+ dir +:+ ": no such file or directory");
     parser_ParseFile := fun f =>
       if String.eqb f "/go/src/p/a.go" then inl ex_file
       else if String.eqb f "/go/src/p/latest.go" then inl ex_file_latest
       else inr (f +:+ ":1:1: expected 'package', found 'EOF'");
     parser_ParseFile_again := fun _ => None;
     ioutil_ReadFile := fun f =>
       if String.eqb f "/go/src/p/a.go" then inl ex_src
       else if String.eqb f "/go/src/p/latest.go" then inl ex_src_latest
       else inr ("open " +:+ f +:+ ": no such file or directory");
     template_Parse := fun _ => None;
     template_callError := fun name => "error calling " +:+ name;
     format_Source := fun s => inl s;
     os_MkdirAll := fun _ => None;
     ioutil_WriteFile := fun _ _ => None |}.

(** Two orders of [range]: the keys in ascending and in descending order. *)
Definition sch_az : Sched := fun _ a b => String.ltb a b.
Definition sch_za : Sched := fun _ a b => String.ltb b a.

(** The package [p] as [parsePkg] returns it in [ex_env]. *)
Definition ex_pkg : AstPackage :=
  mkAstPackage "p" {[ "/go/src/p/a.go" := ex_file ]}.

(** The extracted package [p]. *)
Definition ex_Package : Package :=
  mkPackage "p"
    [ mkStruct "S"
        [mkMethod "Get" [mkField "o" "S"; mkField "l" "[]S"]
                        [mkField EmptyString "*S"]]
        [mkField "A" "int"; mkField "Next" "*S"] None;
      mkStruct "foo" [mkMethod "Bar" [] []] [] None ] [] "p".

(** ** Reading the rendered texts *)

(** A parameter list or result list as Go writes it: each name with its
    type, separated by commas. *)
Definition param_list (fields : list Field) : string :=
  String.concat ", " (map (fun f => Field_Name f +:+ " " +:+ Field_Type f) fields).

(** The names of the parameters, separated by commas. *)
Definition arg_list (fields : list Field) : string :=
  String.concat ", " (map Field_Name fields).

(** The signature of the accessor of a field, and of a method. *)
Definition accessor_signature (f : Field) : string :=
  Field_Name f +:+ "() " +:+ Field_Type f.

Definition method_signature (name : string) (params results : list Field) : string :=
  name +:+ "(" +:+ param_list params +:+ ") (" +:+ param_list results +:+ ")".

(** The lines of an interface declaration. *)
Definition interface_declaration (name : string) (signatures : list string)
    : list string :=
  ("type " +:+ name +:+ " interface {") ::
  map (fun s => "    " +:+ s) signatures ++ ["}"].

(** The lines of a text that are not empty. *)
Definition nonblank_lines (text : string) : list string :=
  List.filter (fun l => negb (String.eqb l EmptyString)) (strings_Split text "010").

(** The text [x] stands somewhere in [text]. *)
Definition occurs (x text : string) : Prop :=
  exists pre post, text = pre +:+ x +:+ post.

Definition single_line (s : string) : Prop := has_byte "010" s = false.

(** The text of the interface of a struct. *)
Definition iface_text (st : Struct) : string :=
  LF +:+ "type " +:+ Struct_Name st +:+ " interface {" +:+ LF +:+
  writeAll (map iface_field (Struct_Fields st)) +:+
  LF +:+ LF +:+
  writeAll (map iface_method (Struct_Methods st)) +:+
  LF +:+ "}" +:+ LF.

Definition Method_signature (m : Method) : string :=
  method_signature (Method_Name m) (Method_Params m) (Method_Results m).

(** The signatures of the interface of a struct: the accessors of the
    fields, then the methods. *)
Definition Struct_signatures (st : Struct) : list string :=
  map accessor_signature (Struct_Fields st) ++
  map Method_signature (Struct_Methods st).

Definition Struct_single_line (st : Struct) : Prop :=
  single_line (Struct_Name st) /\
  forall s, In s (Struct_signatures st) -> single_line s.

(** ** The wrappers *)

(** A type as the wrapper writes it: the name of an extracted struct of
    the package, with or without a star in front, gets the interface
    package in front; any other type stays. *)
Definition names_struct (pkg : Package) (typ : string) : bool :=
  existsb (fun st => String.eqb (Struct_Name st) typ) (Package_Structs pkg).

Definition qualified (pkg : Package) (typ : string) : string :=
  if names_struct pkg typ then Package_Name pkg +:+ "iface." +:+ typ else typ.

Definition wrapper_type (pkg : Package) (typ : string) : string :=
  match typ with
  | String "*" typ' => "*" +:+ qualified pkg typ'
  | _ => qualified pkg typ
  end.

Definition wrapper_field (pkg : Package) (f : Field) : Field :=
  mkField (Field_Name f) (wrapper_type pkg (Field_Type f)).

(** The declarations of a wrapper: the type with the original inside,
    the accessor of a field, the method that calls the original. *)
Definition wrapper_struct (pkgName structName : string) : string :=
  "type " +:+ structName +:+ " struct {" +:+ LF +:+
  "    parent *" +:+ pkgName +:+ "." +:+ structName +:+ LF +:+
  "}".

Definition wrapper_accessor (structName name typ : string) : string :=
  "func (x *" +:+ structName +:+ ")" +:+ name +:+ "() (" +:+ typ +:+ ") {" +:+ LF +:+
  "    return x.parent." +:+ name +:+ LF +:+
  "}".

Definition wrapper_method (structName name : string) (params results : list Field)
    : string :=
  "func (x *" +:+ structName +:+ ") " +:+ method_signature name params results +:+
  " {" +:+ LF +:+
  "    return x.parent." +:+ name +:+ "(" +:+ arg_list params +:+ ")" +:+ LF +:+
  "}".

(** No type of the shape is the empty text. *)
Definition typed (fields : list Field) : Prop :=
  forall f, In f fields -> Field_Type f <> EmptyString.

Definition Struct_typed (st : Struct) : Prop :=
  typed (Struct_Fields st) /\
  forall m, In m (Struct_Methods st) ->
    typed (Method_Params m) /\ typed (Method_Results m).

(** The text of the wrapper of a struct. *)
Definition impl_field_text (pkg : Package) (structName : string) (f : Field) : string :=
  LF +:+ wrapper_accessor structName (Field_Name f)
           (wrapper_type pkg (Field_Type f)) +:+ LF.

Definition impl_method_text (pkg : Package) (structName : string) (m : Method)
    : string :=
  LF +:+ wrapper_method structName (Method_Name m)
           (map (wrapper_field pkg) (Method_Params m))
           (map (wrapper_field pkg) (Method_Results m)) +:+ LF.

Definition impl_text (pkg : Package) (st : Struct) : string :=
  LF +:+ wrapper_struct (Package_Name pkg) (Struct_Name st) +:+ LF +:+ LF +:+
  writeAll (map (impl_field_text pkg (Struct_Name st)) (Struct_Fields st)) +:+
  LF +:+ LF +:+
  writeAll (map (impl_method_text pkg (Struct_Name st)) (Struct_Methods st)) +:+
  LF.

(** ** The wrapper against the interface *)

(** The types that the shape of a struct mentions. *)
Definition Struct_types (st : Struct) : list string :=
  map Field_Type (Struct_Fields st) ++
  flat_map (fun m => map Field_Type (Method_Params m) ++
                     map Field_Type (Method_Results m)) (Struct_Methods st).

(** The head of the declaration of a method of the wrapper. *)
Definition wrapper_method_head (structName name : string)
    (params results : list Field) : string :=
  "func (x *" +:+ structName +:+ ") " +:+ method_signature name params results +:+
  " {".

(** ** Errors *)

(** The steps of [genCode] for one sub-package, in their order: [e] is
    the error of the first step that fails. *)
Definition subpkg_first_error (env : Env) (basePkg name : string) (pkg : Package)
    (e : Error) : Prop :=
  buildIfaces env pkg = Err e \/
  exists ifaces, buildIfaces env pkg = Ok ifaces /\
  (check FromTemplateParse (template_Parse env TmplIfacePkg) = Err e \/
   template_Parse env TmplIfacePkg = None /\
  (lift FromFormat (format_Source env (ifaceTmpl_Execute name ifaces)) = Err e \/
   exists ifacePkg,
     format_Source env (ifaceTmpl_Execute name ifaces) = inl ifacePkg /\
  (buildImpls env pkg = Err e \/
   exists impls, buildImpls env pkg = Ok impls /\
  (check FromTemplateParse (template_Parse env TmplImplPkg) = Err e \/
   template_Parse env TmplImplPkg = None /\
   lift FromFormat
     (format_Source env
        (implTmpl_Execute name impls (Package_ImportPath pkg) basePkg)) = Err e)))).

(** A call that panics or succeeds, and never returns an error. *)
Definition no_Err {A : Type} (r : Res A) : Prop := forall e, r <> Err e.

(** The environment [ex_env] in which no file can be read after the
    directory has been parsed. *)
Definition ex_env_unreadable : Env :=
  mkEnv (GOPATH ex_env) (path_Join ex_env) (filepath_Abs ex_env)
        (os_ReadDir ex_env) (parser_ParseFile ex_env)
        (parser_ParseFile_again ex_env)
        (fun f => inr ("open " +:+ f +:+ ": permission denied"))
        (template_Parse ex_env) (template_callError ex_env)
        (format_Source ex_env) (os_MkdirAll ex_env) (ioutil_WriteFile ex_env).

(** ** The errors that reach [main] *)

(** The errors of a call come from the library calls of [srcs]. *)
Definition from {A : Type} (srcs : list ErrSource) (r : Res A) : Prop :=
  forall e, r = Err e -> In (err_source e) srcs.

(** The sources of the errors that [genCode] returns. *)
Definition genCode_sources : list ErrSource :=
  [FromReadDir; FromParseFile; FromTemplateParse; FromTemplateExec; FromFormat].

(** The classes of errors that the specification names. *)
Inductive ErrClass : Type := ParseFailure | TemplateFailure | WriteFailure.

Definition error_class (src : ErrSource) : option ErrClass :=
  match src with
  | FromReadDir | FromParseFile => Some ParseFailure
  | FromTemplateParse | FromTemplateExec => Some TemplateFailure
  | FromMkdirAll | FromWriteFile => Some WriteFailure
  | FromAbs | FromReadFile | FromFormat => None
  end.

(** The environment [ex_env] in which the working directory is gone. *)
Definition ex_env_nocwd : Env :=
  mkEnv (GOPATH ex_env) (path_Join ex_env)
        (fun _ => inr "getwd: no such file or directory")
        (os_ReadDir ex_env) (parser_ParseFile ex_env)
        (parser_ParseFile_again ex_env) (ioutil_ReadFile ex_env)
        (template_Parse ex_env) (template_callError ex_env)
        (format_Source ex_env) (os_MkdirAll ex_env) (ioutil_WriteFile ex_env).

(** C6, as it is stated: the text of every error that reaches [main] is
    what the run writes to standard error, and every such error is a
    parse failure, a template failure or a write failure. *)
Definition surfaced_verbatim : Prop :=
  forall (sch : Sched) (env : Env) (in_ out : string) (evs : list Event)
         (err : Error),
    in_ <> EmptyString ->
    main_steps sch env in_ out = (evs, Err err) ->
    stderr (fst (main sch env in_ out)) = Some (err_Error err) /\
    snd (main sch env in_ out) = ExitCode 1.

Definition surfaced_classes : Prop :=
  forall (sch : Sched) (env : Env) (in_ out : string) (evs : list Event)
         (err : Error),
    in_ <> EmptyString ->
    main_steps sch env in_ out = (evs, Err err) ->
    is_Some (error_class (err_source err)).

(** ** Two runs on the same input *)

(** The two texts that [genCode] stores for a sub-package; they do not
    depend on the maps built so far. *)
Definition genCode_texts (env : Env) (basePkg name : string) (pkg : Package)
    : Res (string * string) :=
  genCode_subpkg env basePkg (∅, ∅) (name, pkg) ≫= fun maps =>
  match fst maps !! (name +:+ "iface"), snd maps !! name with
  | Some ifacePkg, Some implPkg => Ok (ifacePkg, implPkg)
  | _, _ => Panic
  end.

(** The order that visits the map of the sub-packages of [genCode]
    downwards and every other map upwards. *)
Definition sch_mixed : Sched :=
  fun site a b =>
    match site with
    | LoopGenCode | LoopSubpackages | LoopStructMethods | LoopStructFields =>
        String.ltb b a
    | _ => String.ltb a b
    end.

(** ** What the shapes hold *)

Definition exported_methods (ms : list Method) : Prop :=
  forall m, In m ms -> ast_IsExported (Method_Name m) = true.

Definition exported_fields (fs : list Field) : Prop :=
  forall f, In f fs -> ast_IsExported (Field_Name f) = true.

(** ** The later names of a declaration, in the whole run *)

(** The syntax tree in which every declaration of fields, parameters or
    results keeps its first name only. *)
Fixpoint trim_Expr (e : Expr) : Expr :=
  match e with
  | StructType p en fields =>
      StructType p en
        (map (fun f => match f with
                       | mkAstField ns t =>
                           mkAstField (match ns with n :: _ => [n] | [] => [] end)
                                      (trim_Expr t)
                       end) fields)
  | OtherExpr p en children => OtherExpr p en (map trim_Expr children)
  end.

Definition trim_Field (f : AstField) : AstField :=
  mkAstField (match AstField_Names f with n :: _ => [n] | [] => [] end)
             (trim_Expr (AstField_Type f)).

Definition trim_Node (st : StructTypeNode) : StructTypeNode :=
  mkStructTypeNode (st_Pos st) (map trim_Field (st_Fields st)).

Definition trim_Decl (d : Decl) : Decl :=
  match d with
  | DeclFunc fd =>
      DeclFunc (mkFuncDecl (option_map (map trim_Field) (fd_Recv fd)) (fd_Name fd)
                           (map trim_Field (fd_Params fd))
                           (option_map (map trim_Field) (fd_Results fd))
                           (map trim_Expr (fd_Body fd)))
  | DeclGen specs => DeclGen (map trim_Expr specs)
  end.

Definition trim_File (f : AstFile) : AstFile :=
  mkAstFile (File_Name f) (map trim_Decl (File_Decls f)).

Definition trim_Package (p : AstPackage) : AstPackage :=
  mkAstPackage (AstPackage_Name p) (trim_File <$> AstPackage_Files p).

(** The environment whose parser returns the trimmed trees. *)
Definition trim_env (env : Env) : Env :=
  mkEnv (GOPATH env) (path_Join env) (filepath_Abs env) (os_ReadDir env)
        (fun f => match parser_ParseFile env f with
                  | inl file => inl (trim_File file)
                  | inr msg => inr msg
                  end)
        (parser_ParseFile_again env)
        (ioutil_ReadFile env) (template_Parse env) (template_callError env)
        (format_Source env) (os_MkdirAll env) (ioutil_WriteFile env).

(** Induction on a syntax tree, through its lists of fields and of
    children. *)
Fixpoint Expr_induction (P : Expr -> Prop)
    (Hs : forall p en fields,
            Forall (fun f => P (AstField_Type f)) fields -> P (StructType p en fields))
    (Ho : forall p en children, Forall P children -> P (OtherExpr p en children))
    (e : Expr) : P e :=
  match e with
  | StructType p en fields =>
      Hs p en fields
        ((fix go (l : list AstField) : Forall (fun f => P (AstField_Type f)) l :=
            match l with
            | [] => @List.Forall_nil _ _
            | f :: l' =>
                @List.Forall_cons _ _ f l'
                  (match f return P (AstField_Type f) with
                   | mkAstField _ t => Expr_induction P Hs Ho t
                   end) (go l')
            end) fields)
  | OtherExpr p en children =>
      Ho p en children
        ((fix go (l : list Expr) : Forall P l :=
            match l with
            | [] => @List.Forall_nil _ _
            | c :: l' =>
                @List.Forall_cons _ _ c l' (Expr_induction P Hs Ho c) (go l')
            end) children)
  end.

(** The order that visits the map of the structs of [getStructs] downwards
    and every other map upwards. *)
Definition sch_structs_za : Sched :=
  fun site a b =>
    match site with
    | LoopStructMap => String.ltb b a
    | _ => String.ltb a b
    end.

(** ** What [getMethods] records *)

(** The method that a declaration of a file of content [src] declares,
    as [getMethods] records it: under the name [a] of its receiver type,
    with its name and the fields of its parameters and results. *)
Definition declares (src : string) (decl : Decl) (a : string) (m : Method) : Prop :=
  exists fd params results,
    GetReceiverTypeName src decl = Ok (a, Some fd) /\
    ast_IsExported (fd_Name fd) = true /\
    getMethodFields src (fd_Params fd) = Ok params /\
    match fd_Results fd with
    | Some l => getMethodFields src l
    | None => Ok []
    end = Ok results /\
    m = mkMethod (fd_Name fd) params results.

(** The method [m] is among the methods that [methodMap] holds for [a]. *)
Definition recorded (methodMap : gmap string (list Method)) (am : string * Method)
    : Prop :=
  exists ms, methodMap !! fst am = Some ms /\ In (snd am) ms.

(** * Properties *)

(** ** Strings *)

Lemma append_cons (c : ascii) (a b : string) :
  String c a +:+ b = String c (a +:+ b).
Proof. reflexivity. Qed.

Lemma append_nil_l (a : string) : EmptyString +:+ a = a.
Proof. reflexivity. Qed.

Lemma append_assoc (a b c : string) : (a +:+ b) +:+ c = a +:+ b +:+ c.
Proof.
  induction a as [|x a IH]; [reflexivity |].
  rewrite !append_cons. by rewrite IH.
Qed.

Lemma append_nil_r (a : string) : a +:+ EmptyString = a.
Proof.
  induction a as [|x a IH]; [reflexivity |].
  rewrite append_cons. by rewrite IH.
Qed.

Lemma strings_HasPrefix_app (p s : string) : strings_HasPrefix (p +:+ s) p = true.
Proof.
  induction p as [|c p IH]; [reflexivity |].
  rewrite append_cons. simpl. by rewrite Ascii.eqb_refl, IH.
Qed.

Lemma strings_HasPrefix_inv (s p : string) :
  strings_HasPrefix s p = true -> exists post, s = p +:+ post.
Proof.
  revert s; induction p as [|c p IH]; intros s H; simpl in *.
  - by exists s.
  - destruct s as [|d s]; [discriminate |].
    apply andb_prop in H as [Hc Hp].
    apply Ascii.eqb_eq in Hc as ->.
    destruct (IH _ Hp) as [post ->]. by exists post.
Qed.

(** [strings_Contains] decides the presence of a substring. *)
Lemma strings_Contains_spec (s substr : string) :
  strings_Contains s substr = true <->
  exists pre post, s = pre +:+ substr +:+ post.
Proof.
  split.
  - induction s as [|c s IH]; simpl; intros H.
    + rewrite orb_false_r in H.
      destruct (strings_HasPrefix_inv _ _ H) as [post E].
      exists EmptyString, post. exact E.
    + apply orb_prop in H as [H|H].
      * destruct (strings_HasPrefix_inv _ _ H) as [post E].
        exists EmptyString, post. exact E.
      * destruct (IH H) as (pre & post & ->).
        by exists (String c pre), post.
  - intros (pre & post & ->).
    induction pre as [|c pre IH].
    + rewrite append_nil_l.
      destruct (substr +:+ post) eqn:E; simpl;
        rewrite <- E, strings_HasPrefix_app; reflexivity.
    + rewrite append_cons. simpl. rewrite IH. apply orb_true_r.
Qed.

(** ** Files that [parsePkg] leaves out *)

Lemma fold_left_filter_skip {A S : Type} (f : S -> A -> S) (p : A -> bool)
    (l : list A) (s : S) :
  (forall s x, p x = false -> f s x = s) ->
  fold_left f (List.filter p l) s = fold_left f l s.
Proof.
  intros Hskip. revert s.
  induction l as [|x l IH]; intros s; simpl; [reflexivity |].
  destruct (p x) eqn:E; simpl.
  - apply IH.
  - rewrite (Hskip s x E). apply IH.
Qed.

Lemma parser_ParseDir_without (env : Env) (path name : string)
    (filter : string -> bool) :
  filter name = false ->
  parser_ParseDir (without_file name env) path filter =
  parser_ParseDir env path filter.
Proof.
  intros Hf. unfold parser_ParseDir. simpl.
  destruct (os_ReadDir env path) as [l|msg]; simpl; [| reflexivity].
  rewrite fold_left_filter_skip; [reflexivity |].
  intros [pkgs first] x Hx.
  apply negb_false_iff, String.eqb_eq in Hx as ->.
  by rewrite Hf, andb_false_r.
Qed.

(** C9.  [parsePkg] leaves out every file whose name contains the
    substring [test], wherever it stands in the name: the filter rejects
    the name, and the parsed package, the extracted shapes and the
    generated packages are those of the directory without the file. *)
Theorem parsePkg_skips_test (sch : Sched) (env : Env)
    (pkgPath basePkg name : string) :
  (exists pre post, name = pre +:+ "test" +:+ post) ->
  parsePkg_filter name = false /\
  parsePkg (without_file name env) pkgPath = parsePkg env pkgPath /\
  getSubpackages sch (without_file name env) pkgPath =
    getSubpackages sch env pkgPath /\
  genCode sch (without_file name env) pkgPath basePkg =
    genCode sch env pkgPath basePkg.
Proof.
  intros Hname.
  assert (Hf : parsePkg_filter name = false).
  { unfold parsePkg_filter. apply negb_false_iff.
    by apply strings_Contains_spec. }
  assert (Hp : parsePkg (without_file name env) pkgPath = parsePkg env pkgPath).
  { unfold parsePkg. simpl. by apply parser_ParseDir_without. }
  assert (Hs : getSubpackages sch (without_file name env) pkgPath =
               getSubpackages sch env pkgPath).
  { unfold getSubpackages. rewrite Hp. reflexivity. }
  split; [exact Hf |]. split; [exact Hp |]. split; [exact Hs |].
  unfold genCode. rewrite Hs. reflexivity.
Qed.

(** ** Loops *)

Lemma loopM_app {A S : Type} (f : S -> A -> Res S) (l1 l2 : list A) (s : S) :
  loopM f (l1 ++ l2) s = (s' ← loopM f l1 s; loopM f l2 s').
Proof.
  revert s. induction l1 as [|x l1 IH]; intros s; simpl; [reflexivity |].
  destruct (f s x); simpl; [apply IH | reflexivity | reflexivity].
Qed.

Lemma loopM_map {A B S : Type} (f : S -> B -> Res S) (g : A -> B)
    (l : list A) (s : S) :
  loopM f (map g l) s = loopM (fun s x => f s (g x)) l s.
Proof.
  revert s. induction l as [|x l IH]; intros s; simpl; [reflexivity |].
  destruct (f s (g x)); simpl; [apply IH | reflexivity | reflexivity].
Qed.

Lemma loopM_ext {A S : Type} (f g : S -> A -> Res S) (l : list A) (s : S) :
  (forall s x, In x l -> f s x = g s x) -> loopM f l s = loopM g l s.
Proof.
  revert s. induction l as [|x l IH]; intros s H; simpl; [reflexivity |].
  rewrite (H s x (or_introl eq_refl)).
  destruct (g s x); simpl; [| reflexivity | reflexivity].
  apply IH. intros s' y Hy. apply H. by right.
Qed.

(** A property that every successful iteration preserves holds after the
    loop. *)
Lemma loopM_invariant {A S : Type} (P : S -> Prop) (f : S -> A -> Res S)
    (l : list A) (s s' : S) :
  P s ->
  (forall s x s', In x l -> P s -> f s x = Ok s' -> P s') ->
  loopM f l s = Ok s' -> P s'.
Proof.
  revert s. induction l as [|x l IH]; intros s Hs Hstep H; simpl in H.
  - by inversion H; subst.
  - destruct (f s x) as [s1| |] eqn:E; simpl in H; try discriminate.
    apply (IH s1); [| | exact H].
    + eapply Hstep; [by left | exact Hs | exact E].
    + intros s2 y s3 Hy. apply Hstep. by right.
Qed.

(** The error of a loop is the error of its first failing iteration, and
    the iterations before it have succeeded. *)
Lemma loopM_Err {A S : Type} (f : S -> A -> Res S) (l : list A) (s : S) (e : Error) :
  loopM f l s = Err e <->
  exists l1 x l2 s', l = l1 ++ x :: l2 /\ loopM f l1 s = Ok s' /\ f s' x = Err e.
Proof.
  split.
  - revert s. induction l as [|x l IH]; intros s H; simpl in H; [discriminate |].
    destruct (f s x) as [s1|e1|] eqn:E; simpl in H; try discriminate.
    + destruct (IH _ H) as (l1 & y & l2 & s' & -> & H1 & H2).
      exists (x :: l1), y, l2, s'. simpl. rewrite E. simpl. by repeat split.
    + inversion H; subst. exists [], x, l, s. by repeat split.
  - intros (l1 & x & l2 & s' & -> & H1 & H2).
    rewrite loopM_app, H1. simpl. by rewrite H2.
Qed.

(** An iteration that cannot succeed keeps the loop from succeeding. *)
Lemma loopM_not_Ok {A S : Type} (f : S -> A -> Res S) (l : list A) (x : A) (s : S) :
  In x l -> (forall s s', f s x <> Ok s') -> forall s', loopM f l s <> Ok s'.
Proof.
  revert s. induction l as [|y l IH]; intros s Hin Hx s' H; [destruct Hin |].
  simpl in H. destruct (f s y) as [s1| |] eqn:E; simpl in H; try discriminate.
  destruct Hin as [-> | Hin]; [by apply (Hx s s1) |].
  by apply (IH s1 Hin Hx s').
Qed.

(** ** The order of [range] *)

Lemma insert_by_Permutation {V : Type} (before : string -> string -> bool)
    (kv : string * V) (l : list (string * V)) :
  Permutation (insert_by before kv l) (kv :: l).
Proof.
  induction l as [|x l IH]; simpl; [reflexivity |].
  destruct (before kv.1 x.1); [reflexivity |].
  rewrite IH. apply perm_swap.
Qed.

Lemma order_by_Permutation {V : Type} (before : string -> string -> bool)
    (l : list (string * V)) :
  Permutation (order_by before l) l.
Proof.
  induction l as [|x l IH]; simpl; [reflexivity |].
  unfold order_by in *. simpl. rewrite insert_by_Permutation. by constructor.
Qed.

(** A [range] loop visits every entry of the map, once. *)
Lemma range_Permutation {V : Type} (sch : Sched) (site : Loop) (m : gmap string V) :
  Permutation (range sch site m) (map_to_list m).
Proof. apply order_by_Permutation. Qed.

Lemma elem_of_range {V : Type} (sch : Sched) (site : Loop) (m : gmap string V)
    (k : string) (v : V) :
  In (k, v) (range sch site m) <-> m !! k = Some v.
Proof.
  rewrite <- list_elem_of_In, range_Permutation. apply elem_of_map_to_list.
Qed.

Lemma range_NoDup {V : Type} (sch : Sched) (site : Loop) (m : gmap string V) :
  NoDup (map fst (range sch site m)).
Proof.
  rewrite range_Permutation. apply (NoDup_fst_map_to_list m).
Qed.

(** ** Declarations that list several names *)

Lemma getMethodFields_loop (src : string) (astFields : list AstField)
    (acc fields : list Field) :
  loopM (fun fields astField =>
    let name :=
      match AstField_Names astField with
      | n :: _ => n
      | [] => EmptyString
      end in
    typ ← typeText src (AstField_Type astField);
    Ok (fields ++ [mkField name typ])) astFields acc = Ok fields ->
  exists new, fields = acc ++ new /\ Forall2 (records src) astFields new.
Proof.
  revert acc. induction astFields as [|a l IH]; intros acc H; simpl in H.
  - inversion H; subst. exists []. split; [by rewrite app_nil_r | constructor].
  - destruct (typeText src (AstField_Type a)) as [typ| |] eqn:E;
      simpl in H; try discriminate.
    destruct (IH _ H) as (new & -> & Hnew).
    exists (mkField (first_name a) typ :: new). split.
    + by rewrite <- app_assoc.
    + constructor; [by split | exact Hnew].
Qed.

Lemma getFields_exported_loop (src : string) (astFields : list AstField)
    (acc fields : list Field) :
  loopM (fun exportedFields astField =>
    match AstField_Names astField with
    | n :: _ =>
        if ast_IsExported n then
          typ ← typeText src (AstField_Type astField);
          Ok (exportedFields ++ [mkField n typ])
        else Ok exportedFields
    | [] => Ok exportedFields
    end) astFields acc = Ok fields ->
  exists new, fields = acc ++ new /\
    Forall2 (records src)
      (List.filter (fun a => ast_IsExported (first_name a)) astFields) new.
Proof.
  revert acc. induction astFields as [|a l IH]; intros acc H; simpl in H.
  - inversion H; subst. exists []. split; [by rewrite app_nil_r | constructor].
  - simpl. unfold first_name at 1.
    destruct (AstField_Names a) as [|n ns] eqn:En; simpl in *.
    { apply IH in H. exact H. }
    destruct (ast_IsExported n) eqn:Ex; simpl in *; [| by apply IH in H].
    destruct (typeText src (AstField_Type a)) as [typ| |] eqn:E;
      simpl in H; try discriminate.
    destruct (IH _ H) as (new & -> & Hnew).
    exists (mkField n typ :: new). split.
    + by rewrite <- app_assoc.
    + constructor; [| exact Hnew]. split; [| exact E].
      unfold first_name. by rewrite En.
Qed.

(** The fields of a shape are, one for one, the first names and type
    texts of the declarations; the names after the first play no part. *)
Lemma first_name_only_fields (src : string) (astFields : list AstField) :
  (forall fields, getMethodFields src astFields = Ok fields ->
     Forall2 (records src) astFields fields) /\
  (forall fields, getFields_exported src astFields = Ok fields ->
     Forall2 (records src)
       (List.filter (fun a => ast_IsExported (first_name a)) astFields) fields) /\
  getMethodFields src (map first_name_only astFields) =
    getMethodFields src astFields /\
  getFields_exported src (map first_name_only astFields) =
    getFields_exported src astFields.
Proof.
  repeat split.
  - intros fields H. apply getMethodFields_loop in H as (new & -> & H). exact H.
  - intros fields H. apply getFields_exported_loop in H as (new & -> & H). exact H.
  - unfold getMethodFields. rewrite loopM_map. apply loopM_ext.
    intros s [ns t] _. simpl. by destruct ns.
  - unfold getFields_exported. rewrite loopM_map. apply loopM_ext.
    intros s [ns t] _. simpl. by destruct ns.
Qed.

(** ** The name of a struct type *)

Lemma strings_Split_nonempty (s : string) (sep : ascii) : strings_Split s sep <> [].
Proof.
  destruct s as [|c s]; simpl; [discriminate |].
  destruct (Ascii.eqb c sep); [discriminate |].
  destruct (strings_Split s sep); discriminate.
Qed.

(** The first piece of a split ends at the first separator. *)
Lemma strings_Split_app (a b : string) (sep : ascii) :
  has_byte sep a = false ->
  strings_Split (a +:+ String sep b) sep = a :: strings_Split b sep.
Proof.
  induction a as [|c a IH]; intros H.
  - rewrite append_nil_l. simpl. by rewrite Ascii.eqb_refl.
  - simpl in H. apply orb_false_elim in H as [Hc Ha].
    rewrite append_cons. simpl. rewrite Hc, (IH Ha). reflexivity.
Qed.

Lemma at_index_short {A : Type} (l : list A) (i : Z) :
  (Z.of_nat (length l) <= i) -> at_index l i = Panic.
Proof.
  intros H. unfold at_index. destruct (0 <=? i) eqn:E; [| reflexivity].
  destruct (nth_error l (Z.to_nat i)) eqn:En; [| reflexivity].
  assert (Hlt : (Z.to_nat i < length l)%nat).
  { apply nth_error_Some. by rewrite En. }
  apply Z.leb_le in E. lia.
Qed.

Lemma at_index_lookup {A : Type} (l : list A) (n : nat) :
  (n < length l)%nat ->
  exists a, at_index l (Z.of_nat n) = Ok a /\ l !! n = Some a.
Proof.
  intros H. unfold at_index.
  assert ((0 <=? Z.of_nat n) = true) as -> by (apply Z.leb_le; lia).
  rewrite Nat2Z.id.
  destruct (nth_error l n) as [a|] eqn:E.
  - exists a. split; [reflexivity |]. revert n H E.
    induction l as [|x l IH]; intros [|n] H E; simpl in *; try discriminate;
      try lia; [exact E |].
    apply IH; [lia | exact E].
  - apply nth_error_None in E. lia.
Qed.

(** A struct type whose name cannot be taken stops the extraction of the
    fields of the package. *)
Lemma getFields_stops (sch : Sched) (env : Env) (pkg : AstPackage)
    (fileName src : string) (astFile : AstFile) (st : StructTypeNode) :
  AstPackage_Files pkg !! fileName = Some astFile ->
  ioutil_ReadFile env fileName = inl src ->
  In st (Inspect_File astFile) ->
  getStructName src st = Panic ->
  forall fieldMap, getFields sch env pkg <> Ok fieldMap.
Proof.
  intros Hfile Hread Hst Hname. unfold getFields.
  apply (loopM_not_Ok _ _ (fileName, astFile)).
  - by apply elem_of_range.
  - intros fm fm'. unfold getFields_file. rewrite Hread.
    destruct (parser_ParseFile_again env fileName); simpl; [discriminate |].
    apply (loopM_not_Ok _ _ st); [exact Hst |].
    intros s s'. unfold getFields_visit. rewrite Hname. discriminate.
Qed.

(** C8.  [getStructName] takes the line of the source that holds the
    position of the struct type, splits it at the single spaces and takes
    the second piece, whatever the line is.  On a line of fewer than two
    pieces the index is out of range: the function panics, and the
    extraction of the fields of a package that holds such a struct type
    in a file it can read does not return its map.  On a line of two
    pieces or more the
    result is the second piece; on a line [type Name struct ...] it is
    [Name]. *)
Theorem getStructName_second_piece (src : string) (st : StructTypeNode)
    (line : string) :
  at_index (strings_Split src "010") (Position_Line src (st_Pos st) - 1) = Ok line ->
  getStructName src st = at_index (strings_Split line " ") 1 /\
  ((length (strings_Split line " ") < 2)%nat ->
     getStructName src st = Panic /\
     forall sch env pkg fileName astFile,
       AstPackage_Files pkg !! fileName = Some astFile ->
       ioutil_ReadFile env fileName = inl src ->
       In st (Inspect_File astFile) ->
       forall fieldMap, getFields sch env pkg <> Ok fieldMap) /\
  ((2 <= length (strings_Split line " "))%nat ->
     exists name, getStructName src st = Ok name /\
                  strings_Split line " " !! 1%nat = Some name) /\
  (forall name rest,
     line = "type " +:+ name +:+ " struct" +:+ rest ->
     has_byte " " name = false ->
     getStructName src st = Ok name).
Proof.
  intros Hline.
  assert (Hdef : getStructName src st = at_index (strings_Split line " ") 1).
  { unfold getStructName. rewrite Hline. reflexivity. }
  split; [exact Hdef |]. split; [| split].
  - intros Hshort.
    assert (Hpanic : getStructName src st = Panic).
    { rewrite Hdef. apply at_index_short. lia. }
    split; [exact Hpanic |].
    intros sch env pkg fileName astFile Hfile Hread Hst.
    by apply (getFields_stops sch env pkg fileName src astFile st).
  - intros Hlong. rewrite Hdef.
    destruct (at_index_lookup (strings_Split line " ") 1) as (name & H1 & H2);
      [lia |].
    exists name. by split.
  - intros name rest -> Hname. rewrite Hdef.
    change ("type " +:+ name +:+ " struct" +:+ rest)
      with ("type" +:+ String " " (name +:+ String " " ("struct" +:+ rest))).
    rewrite strings_Split_app by reflexivity.
    rewrite strings_Split_app by exact Hname.
    reflexivity.
Qed.

(** ** The package [p] *)

Example ex_parsePkg : parsePkg ex_env "p" = Ok {[ "p" := ex_pkg ]}.
Proof. vm_compute. reflexivity. Qed.

Example ex_getStructs :
  getStructs sch_az ex_env ex_pkg =
  Ok [ mkStruct "S"
         [mkMethod "Get" [mkField "o" "S"; mkField "l" "[]S"]
                         [mkField EmptyString "*S"]]
         [mkField "A" "int"; mkField "Next" "*S"] None;
       mkStruct "foo" [mkMethod "Bar" [] []] [] None ].
Proof. vm_compute. reflexivity. Qed.

Example ex_getSubpackages :
  getSubpackages sch_az ex_env "p" = Ok {[ "p" := ex_Package ]}.
Proof. vm_compute. reflexivity. Qed.

(** An instance: the file [latest.go]. *)
Lemma parsePkg_skips_test_witness :
  parsePkg_filter "latest.go" = false /\
  genCode sch_az (without_file "latest.go" ex_env) "p" "base" =
    genCode sch_az ex_env "p" "base".
Proof.
  destruct (parsePkg_skips_test sch_az ex_env "p" "base" "latest.go")
    as (H1 & _ & _ & H4).
  - exists "la", ".go". reflexivity.
  - split; [exact H1 | exact H4].
Defined.

(** An instance: the struct type of
    [latest.go]. *)
Lemma getStructName_second_piece_witness :
  getStructName ex_src_latest ex_struct_anon = Panic.
Proof.
  destruct (getStructName_second_piece ex_src_latest ex_struct_anon
              (TAB +:+ "struct{}{},")) as (_ & H & _).
  - vm_compute. reflexivity.
  - apply H. vm_compute. lia.
Defined.

(** ** Which structs get a shape *)

(** C3.  In the package [p] the struct [foo] is not exported and has the
    exported method [Bar]: [getStructs] records a shape for it. *)
Theorem unexported_struct_recorded :
  ast_IsExported "foo" = false /\
  exists structs st,
    getStructs sch_az ex_env ex_pkg = Ok structs /\
    In st structs /\ Struct_Name st = "foo".
Proof.
  split; [reflexivity |].
  eexists _, (mkStruct "foo" [mkMethod "Bar" [] []] [] None).
  split; [exact ex_getStructs |].
  split; [right; left; reflexivity | reflexivity].
Qed.

(** ** Reading the rendered texts *)

Lemma LF_app (s : string) : LF +:+ s = String "010" s.
Proof. reflexivity. Qed.

Lemma has_byte_app (c : ascii) (a b : string) :
  has_byte c (a +:+ b) = has_byte c a || has_byte c b.
Proof.
  induction a as [|d a IH]; [reflexivity |].
  rewrite append_cons. simpl. by rewrite IH, orb_assoc.
Qed.

Lemma occurs_refl (x : string) : occurs x x.
Proof. exists EmptyString, EmptyString. by rewrite append_nil_r. Qed.

Lemma occurs_app_l (x a b : string) : occurs x a -> occurs x (a +:+ b).
Proof.
  intros (pre & post & ->). exists pre, (post +:+ b).
  by rewrite !append_assoc.
Qed.

Lemma occurs_app_r (x a b : string) : occurs x b -> occurs x (a +:+ b).
Proof.
  intros (pre & post & ->). exists (a +:+ pre), post.
  by rewrite !append_assoc.
Qed.

Lemma occurs_writeAll (x y : string) (l : list string) :
  In y l -> occurs x y -> occurs x (writeAll l).
Proof.
  induction l as [|z l IH]; intros Hin Hx; [destruct Hin |].
  simpl. destruct Hin as [-> | Hin].
  - by apply occurs_app_l.
  - apply occurs_app_r. by apply IH.
Qed.

Lemma occurs_Contains (x text : string) :
  occurs x text <-> strings_Contains text x = true.
Proof. symmetry. apply strings_Contains_spec. Qed.

(** The loops that build a list with separators build [String.concat]. *)
Lemma fold_sep {A : Type} (g : A -> string) (l : list A) (acc pre : string) :
  fst (fold_left (fun '(list, prefix) x => (list +:+ prefix +:+ g x, ", "))
                 l (acc, pre)) =
  acc +:+ match l with
          | [] => EmptyString
          | _ :: _ => pre +:+ String.concat ", " (map g l)
          end.
Proof.
  revert acc pre. induction l as [|x l IH]; intros acc pre.
  - simpl. by rewrite append_nil_r.
  - simpl fold_left. rewrite IH. destruct l as [|y l].
    + simpl. by rewrite append_nil_r.
    + change (String.concat ", " (map g (x :: y :: l)))
        with (g x +:+ ", " +:+ String.concat ", " (map g (y :: l))).
      by rewrite !append_assoc.
Qed.

Lemma buildIfaces_toList_spec (fields : list Field) :
  buildIfaces_toList fields = param_list fields.
Proof.
  unfold buildIfaces_toList, param_list.
  etransitivity;
    [apply (fold_sep (fun f => Field_Name f +:+ " " +:+ Field_Type f)) |].
  by destruct fields.
Qed.

Lemma buildImpls_argList_spec (fields : list Field) :
  buildImpls_argList fields = arg_list fields.
Proof.
  unfold buildImpls_argList, arg_list.
  etransitivity; [apply (fold_sep Field_Name) |].
  by destruct fields.
Qed.

Lemma nonblank_lines_LF (s : string) : nonblank_lines (LF +:+ s) = nonblank_lines s.
Proof. reflexivity. Qed.

Lemma nonblank_lines_line (a s : string) :
  single_line a -> a <> EmptyString ->
  nonblank_lines (a +:+ LF +:+ s) = a :: nonblank_lines s.
Proof.
  intros Ha Hne. unfold nonblank_lines. rewrite LF_app.
  rewrite strings_Split_app by exact Ha. simpl.
  destruct (String.eqb_spec a EmptyString); [contradiction | reflexivity].
Qed.

Lemma nonblank_lines_writeAll {A : Type} (g : A -> string) (l : list A)
    (rest : string) :
  (forall x, In x l -> single_line (g x) /\ g x <> EmptyString) ->
  nonblank_lines (writeAll (map (fun x => LF +:+ g x +:+ LF) l) +:+ rest) =
  map g l ++ nonblank_lines rest.
Proof.
  induction l as [|x l IH]; intros H; [reflexivity |].
  simpl. rewrite !append_assoc, nonblank_lines_LF.
  destruct (H x (or_introl eq_refl)) as [H1 H2].
  rewrite nonblank_lines_line by assumption.
  rewrite IH; [reflexivity |]. intros y Hy. apply H. by right.
Qed.

Lemma loopM_collect {A : Type} (g : A -> Res string) (h : A -> string)
    (l : list A) (acc : list string) :
  (forall x, In x l -> g x = Ok (h x)) ->
  loopM (fun acc x => buf ← g x; Ok (acc ++ [buf])) l acc = Ok (acc ++ map h l).
Proof.
  revert acc. induction l as [|x l IH]; intros acc H; simpl.
  - by rewrite app_nil_r.
  - rewrite (H x (or_introl eq_refl)). simpl.
    rewrite IH; [by rewrite <- app_assoc |].
    intros y Hy. apply H. by right.
Qed.

(** ** The interfaces *)

Lemma iface_field_line (f : Field) :
  iface_field f = LF +:+ ("    " +:+ accessor_signature f) +:+ LF.
Proof. unfold iface_field, accessor_signature. by rewrite !append_assoc. Qed.

Lemma iface_method_line (m : Method) :
  iface_method m = LF +:+ ("    " +:+ Method_signature m) +:+ LF.
Proof.
  unfold iface_method, Method_signature, method_signature.
  rewrite !buildIfaces_toList_spec. by rewrite !append_assoc.
Qed.

Lemma indent_line (s : string) :
  single_line s -> single_line ("    " +:+ s) /\ "    " +:+ s <> EmptyString.
Proof.
  intros H. split; [| discriminate].
  unfold single_line. by rewrite has_byte_app, H.
Qed.

Lemma iface_text_lines (st : Struct) :
  Struct_single_line st ->
  nonblank_lines (iface_text st) =
  interface_declaration (Struct_Name st) (Struct_signatures st).
Proof.
  intros [Hname Hsig]. unfold iface_text, interface_declaration, Struct_signatures.
  rewrite nonblank_lines_LF.
  replace ("type " +:+ Struct_Name st +:+ " interface {" +:+ LF +:+
           writeAll (map iface_field (Struct_Fields st)) +:+ LF +:+ LF +:+
           writeAll (map iface_method (Struct_Methods st)) +:+ LF +:+ "}" +:+ LF)
    with (("type " +:+ Struct_Name st +:+ " interface {") +:+ LF +:+
          writeAll (map (fun f => LF +:+ ("    " +:+ accessor_signature f) +:+ LF)
                        (Struct_Fields st)) +:+ LF +:+ LF +:+
          writeAll (map (fun m => LF +:+ ("    " +:+ Method_signature m) +:+ LF)
                        (Struct_Methods st)) +:+ LF +:+ "}" +:+ LF).
  2:{ rewrite !append_assoc. do 4 f_equal.
      f_equal; [f_equal; apply map_ext; intros; by rewrite iface_field_line |].
      do 2 f_equal.
      f_equal. f_equal. apply map_ext; intros; by rewrite iface_method_line. }
  rewrite nonblank_lines_line.
  2:{ unfold single_line. rewrite !has_byte_app, Hname. reflexivity. }
  2:{ discriminate. }
  f_equal.
  rewrite (nonblank_lines_writeAll (fun f => "    " +:+ accessor_signature f)).
  2:{ intros f Hf. apply indent_line, Hsig, in_or_app. left.
      by apply in_map. }
  rewrite !nonblank_lines_LF.
  rewrite (nonblank_lines_writeAll (fun m => "    " +:+ Method_signature m)).
  2:{ intros m Hm. apply indent_line, Hsig, in_or_app. right.
      by apply (in_map Method_signature). }
  rewrite nonblank_lines_LF.
  rewrite map_app, !map_map, <- app_assoc. reflexivity.
Qed.

Lemma buildIfaces_Ok (env : Env) (pkg : Package) :
  template_Parse env TmplIface = None ->
  buildIfaces env pkg = Ok (map iface_text (Package_Structs pkg)).
Proof.
  intros Hparse. unfold buildIfaces. rewrite Hparse. simpl.
  by rewrite (loopM_collect iface_Execute iface_text).
Qed.

Lemma iface_text_occurs (st : Struct) :
  occurs ("type " +:+ Struct_Name st +:+ " interface {") (iface_text st) /\
  forall s, In s (Struct_signatures st) -> occurs s (iface_text st).
Proof.
  unfold iface_text. split.
  - exists LF, (LF +:+ writeAll (map iface_field (Struct_Fields st)) +:+
                LF +:+ LF +:+ writeAll (map iface_method (Struct_Methods st)) +:+
                LF +:+ "}" +:+ LF).
    by rewrite !append_assoc.
  - intros s Hs. apply in_app_or in Hs as [Hs | Hs].
    + apply in_map_iff in Hs as (f & <- & Hf).
      do 5 apply occurs_app_r. apply occurs_app_l.
      apply (occurs_writeAll _ (iface_field f)); [by apply in_map |].
      rewrite iface_field_line.
      apply occurs_app_r, occurs_app_l, occurs_app_r, occurs_refl.
    + apply in_map_iff in Hs as (m & <- & Hm).
      do 8 apply occurs_app_r. apply occurs_app_l.
      apply (occurs_writeAll _ (iface_method m)); [by apply in_map |].
      rewrite iface_method_line.
      apply occurs_app_r, occurs_app_l, occurs_app_r, occurs_refl.
Qed.

(** C5.  For the structs of a package [buildIfaces] returns one text for
    each, in their order.  The text of a struct is one interface
    declaration: its lines that are not empty are the opening line with
    the name of the struct, one accessor signature [F() T] for each field
    [F] of type [T], then one signature for each method with its
    parameter list and its result list, and the closing brace. *)
Theorem buildIfaces_declarations (env : Env) (pkg : Package) :
  template_Parse env TmplIface = None ->
  exists ifaces,
    buildIfaces env pkg = Ok ifaces /\
    Forall2 (fun st text =>
      text = iface_text st /\
      occurs ("type " +:+ Struct_Name st +:+ " interface {") text /\
      (forall s, In s (Struct_signatures st) -> occurs s text) /\
      (Struct_single_line st ->
       nonblank_lines text =
       ("type " +:+ Struct_Name st +:+ " interface {") ::
       map (fun f => "    " +:+ Field_Name f +:+ "() " +:+ Field_Type f)
           (Struct_Fields st) ++
       map (fun m => "    " +:+ Method_Name m +:+
                     "(" +:+ param_list (Method_Params m) +:+
                     ") (" +:+ param_list (Method_Results m) +:+ ")")
           (Struct_Methods st) ++
       ["}"]))
      (Package_Structs pkg) ifaces.
Proof.
  intros Hparse. exists (map iface_text (Package_Structs pkg)).
  split; [by apply buildIfaces_Ok |].
  induction (Package_Structs pkg) as [|st l IH]; simpl; constructor; [| exact IH].
  split; [reflexivity |].
  destruct (iface_text_occurs st) as [H1 H2].
  split; [exact H1 |]. split; [exact H2 |].
  intros Hline. rewrite (iface_text_lines st Hline).
  unfold interface_declaration, Struct_signatures. f_equal.
  rewrite map_app, !map_map, <- app_assoc. reflexivity.
Qed.

(** An instance: the package [p]. *)
Lemma buildIfaces_declarations_witness :
  exists ifaces,
    buildIfaces ex_env ex_Package = Ok ifaces /\
    map nonblank_lines ifaces =
    [ [ "type S interface {"; "    A() int"; "    Next() *S";
        "    Get(o S, l []S) ( *S)"; "}" ];
      [ "type foo interface {"; "    Bar() ()"; "}" ] ].
Proof.
  destruct (buildIfaces_declarations ex_env ex_Package) as (ifaces & H & _);
    [reflexivity |].
  exists ifaces. split; [exact H |].
  vm_compute in H. inversion H. vm_compute. reflexivity.
Defined.

(** ** The wrappers *)

Lemma pkgContainsType_names_struct (pkg : Package) (typ : string) :
  pkgContainsType pkg typ = names_struct pkg typ.
Proof.
  unfold pkgContainsType, names_struct.
  induction (Package_Structs pkg) as [|st l IH]; [reflexivity |].
  simpl. destruct (String.eqb (Struct_Name st) typ); [reflexivity | exact IH].
Qed.

Lemma names_struct_spec (pkg : Package) (typ : string) :
  names_struct pkg typ = true <->
  exists st, In st (Package_Structs pkg) /\ Struct_Name st = typ.
Proof.
  unfold names_struct. rewrite existsb_exists.
  split; intros (st & H1 & H2); exists st; (split; [exact H1 |]);
    by apply String.eqb_eq.
Qed.

Lemma maybeAddIfacePkg_Ok (pkg : Package) (typ : string) :
  typ <> EmptyString -> maybeAddIfacePkg pkg typ = Ok (wrapper_type pkg typ).
Proof.
  destruct typ as [|c typ]; [congruence |]. intros _.
  unfold maybeAddIfacePkg, wrapper_type, qualified.
  rewrite !pkgContainsType_names_struct.
  destruct (Ascii.eqb_spec c "*") as [-> | Hc].
  - reflexivity.
  - destruct c as [[] [] [] [] [] [] [] []]; try reflexivity. congruence.
Qed.

Lemma buildImpls_toList_loop (pkg : Package) (fields : list Field)
    (acc pre : string) :
  typed fields ->
  loopM (fun '(list, prefix) field =>
           typ ← maybeAddIfacePkg pkg (Field_Type field);
           Ok (list +:+ prefix +:+ Field_Name field +:+ " " +:+ typ, ", "))
        fields (acc, pre) =
  Ok (fold_left (fun '(list, prefix) f =>
        (list +:+ prefix +:+
         (Field_Name f +:+ " " +:+ wrapper_type pkg (Field_Type f)), ", "))
        fields (acc, pre)).
Proof.
  revert acc pre. induction fields as [|f l IH]; intros acc pre H; [reflexivity |].
  simpl. rewrite maybeAddIfacePkg_Ok by (apply H; by left). simpl.
  apply IH. intros g Hg. apply H. by right.
Qed.

Lemma buildImpls_toList_spec (pkg : Package) (fields : list Field) :
  typed fields ->
  buildImpls_toList pkg fields = Ok (param_list (map (wrapper_field pkg) fields)).
Proof.
  intros H. unfold buildImpls_toList.
  rewrite buildImpls_toList_loop by exact H. simpl. f_equal.
  etransitivity;
    [apply (fold_sep (fun f => Field_Name f +:+ " " +:+
                                wrapper_type pkg (Field_Type f))) |].
  unfold param_list. rewrite map_map. by destruct fields.
Qed.

Lemma arg_list_wrapper (pkg : Package) (fields : list Field) :
  arg_list (map (wrapper_field pkg) fields) = arg_list fields.
Proof. unfold arg_list. by rewrite map_map. Qed.

Lemma eachM_Ok {A B : Type} (g : A -> Res B) (h : A -> B) (l : list A) :
  (forall x, In x l -> g x = Ok (h x)) -> eachM g l = Ok (map h l).
Proof.
  induction l as [|x l IH]; intros H; simpl; [reflexivity |].
  rewrite (H x (or_introl eq_refl)). simpl.
  rewrite IH; [reflexivity |]. intros y Hy. apply H. by right.
Qed.

Lemma impl_Execute_Ok (env : Env) (pkg : Package) (st : Struct) :
  Struct_typed st ->
  impl_Execute env pkg
    (mkImplData (Package_Name pkg) (Struct_Name st) (Struct_Fields st)
                (Struct_Methods st)) = Ok (impl_text pkg st).
Proof.
  intros [Hf Hm]. unfold impl_Execute. simpl.
  rewrite (eachM_Ok _ (impl_field_text pkg (Struct_Name st))).
  2:{ intros f Hin. unfold impl_field. simpl.
      rewrite maybeAddIfacePkg_Ok by (by apply Hf). simpl.
      unfold impl_field_text, wrapper_accessor. by rewrite !append_assoc. }
  simpl.
  rewrite (eachM_Ok _ (impl_method_text pkg (Struct_Name st))).
  2:{ intros m Hin. unfold impl_method. simpl.
      destruct (Hm m Hin) as [Hp Hr].
      rewrite !buildImpls_toList_spec by assumption. simpl.
      rewrite buildImpls_argList_spec.
      unfold impl_method_text, wrapper_method, method_signature.
      rewrite arg_list_wrapper. by rewrite !append_assoc. }
  simpl. unfold impl_text, wrapper_struct. by rewrite !append_assoc.
Qed.

Lemma buildImpls_Ok (env : Env) (pkg : Package) :
  template_Parse env TmplImpl = None ->
  (forall st, In st (Package_Structs pkg) -> Struct_typed st) ->
  buildImpls env pkg = Ok (map (impl_text pkg) (Package_Structs pkg)).
Proof.
  intros Hparse Htyped. unfold buildImpls. rewrite Hparse. simpl.
  rewrite (loopM_collect _ (impl_text pkg)); [reflexivity |].
  intros st Hst. by apply impl_Execute_Ok, Htyped.
Qed.

Lemma impl_text_occurs (pkg : Package) (st : Struct) :
  occurs (wrapper_struct (Package_Name pkg) (Struct_Name st)) (impl_text pkg st) /\
  (forall f, In f (Struct_Fields st) ->
     occurs (wrapper_accessor (Struct_Name st) (Field_Name f)
               (wrapper_type pkg (Field_Type f))) (impl_text pkg st)) /\
  (forall m, In m (Struct_Methods st) ->
     occurs (wrapper_method (Struct_Name st) (Method_Name m)
               (map (wrapper_field pkg) (Method_Params m))
               (map (wrapper_field pkg) (Method_Results m))) (impl_text pkg st)).
Proof.
  unfold impl_text. split; [| split].
  - apply occurs_app_r, occurs_app_l, occurs_refl.
  - intros f Hf. do 4 apply occurs_app_r. apply occurs_app_l.
    apply (occurs_writeAll _ (impl_field_text pkg (Struct_Name st) f));
      [by apply in_map |].
    apply occurs_app_r, occurs_app_l, occurs_refl.
  - intros m Hm. do 7 apply occurs_app_r. apply occurs_app_l.
    apply (occurs_writeAll _ (impl_method_text pkg (Struct_Name st) m));
      [by apply in_map |].
    apply occurs_app_r, occurs_app_l, occurs_refl.
Qed.

(** C1, as the code has it.  For the structs of a package whose types
    are not empty [buildImpls] returns one text for each, in their order.
    The text of a struct [S] declares the wrapper type [S] around a
    pointer to the original; for every extracted method [M] it declares
    a method [M] of the wrapper whose parameters and results are the
    extracted ones under the same names, each type written as the wrapper
    writes it (the name of an extracted struct, with or without a star,
    gets the interface package in front), and whose body returns the call
    of [M] on the original with the names of the parameters in their
    order. *)
Theorem buildImpls_wrappers (env : Env) (pkg : Package) :
  template_Parse env TmplImpl = None ->
  (forall st, In st (Package_Structs pkg) -> Struct_typed st) ->
  exists impls,
    buildImpls env pkg = Ok impls /\
    Forall2 (fun st text =>
      occurs ("type " +:+ Struct_Name st +:+ " struct {" +:+ LF +:+
              "    parent *" +:+ Package_Name pkg +:+ "." +:+ Struct_Name st +:+ LF +:+
              "}") text /\
      forall m, In m (Struct_Methods st) ->
        exists params results,
          Forall2 (fun p q => Field_Name q = Field_Name p /\
                     maybeAddIfacePkg pkg (Field_Type p) = Ok (Field_Type q) /\
                     Field_Type q = wrapper_type pkg (Field_Type p))
                  (Method_Params m) params /\
          Forall2 (fun p q => Field_Name q = Field_Name p /\
                     maybeAddIfacePkg pkg (Field_Type p) = Ok (Field_Type q) /\
                     Field_Type q = wrapper_type pkg (Field_Type p))
                  (Method_Results m) results /\
          occurs ("func (x *" +:+ Struct_Name st +:+ ") " +:+ Method_Name m +:+
                  "(" +:+ param_list params +:+ ") (" +:+ param_list results +:+
                  ") {" +:+ LF +:+
                  "    return x.parent." +:+ Method_Name m +:+
                  "(" +:+ String.concat ", " (map Field_Name (Method_Params m)) +:+
                  ")" +:+ LF +:+
                  "}") text)
      (Package_Structs pkg) impls.
Proof.
  intros Hparse Htyped. exists (map (impl_text pkg) (Package_Structs pkg)).
  split; [by apply buildImpls_Ok |].
  assert (Hall : forall st, In st (Package_Structs pkg) -> Struct_typed st)
    by exact Htyped.
  clear Htyped. induction (Package_Structs pkg) as [|st l IH]; simpl;
    constructor.
  2:{ apply IH. intros st' Hst'. apply Hall. by right. }
  destruct (impl_text_occurs pkg st) as (H1 & _ & H3).
  split; [exact H1 |].
  intros m Hm.
  destruct (Hall st (or_introl eq_refl)) as [_ Hms].
  destruct (Hms m Hm) as [Hp Hr].
  exists (map (wrapper_field pkg) (Method_Params m)),
         (map (wrapper_field pkg) (Method_Results m)).
  assert (Hq : forall fields, typed fields ->
            Forall2 (fun p q => Field_Name q = Field_Name p /\
                       maybeAddIfacePkg pkg (Field_Type p) = Ok (Field_Type q) /\
                       Field_Type q = wrapper_type pkg (Field_Type p))
                    fields (map (wrapper_field pkg) fields)).
  { intros fields. induction fields as [|f fs IHf]; intros Hty; simpl;
      constructor.
    - simpl. split; [reflexivity |]. split; [| reflexivity].
      apply maybeAddIfacePkg_Ok, Hty. by left.
    - apply IHf. intros g Hg. apply Hty. by right. }
  split; [by apply Hq |]. split; [by apply Hq |].
  specialize (H3 m Hm). unfold wrapper_method, method_signature in H3.
  rewrite arg_list_wrapper in H3. unfold arg_list in H3.
  by rewrite !append_assoc in H3.
Qed.

(** The types of the shapes of a given package are not empty: by cases
    on its structs, fields, methods, parameters and results. *)
Ltac typed_by_cases :=
  let st := fresh "st" in
  let Hst := fresh "Hst" in
  let f := fresh "f" in
  let Hf := fresh "Hf" in
  let m := fresh "m" in
  let Hm := fresh "Hm" in
  intros st Hst; simpl in Hst;
  repeat (destruct Hst as [<- | Hst];
          [split;
           [intros f Hf; simpl in Hf;
            repeat (destruct Hf as [<- | Hf]; [discriminate |]); destruct Hf
           |intros m Hm; simpl in Hm;
            repeat (destruct Hm as [<- | Hm];
                    [split; intros f Hf; simpl in Hf;
                     repeat (destruct Hf as [<- | Hf]; [discriminate |]);
                     destruct Hf |]); destruct Hm] |]);
  destruct Hst.

(** An instance: the package [p]. *)
Lemma buildImpls_wrappers_witness :
  exists impls, buildImpls ex_env ex_Package = Ok impls /\ length impls = 2%nat.
Proof.
  destruct (buildImpls_wrappers ex_env ex_Package) as (impls & H & HF);
    [reflexivity | typed_by_cases |].
  exists impls. split; [exact H |].
  apply Forall2_length in HF. rewrite <- HF. reflexivity.
Defined.

(** C1, as it is stated, fails: in the package [p] the method [Get] of
    [S] takes a parameter of type [S] and returns a [*S]; the wrapper
    declares it with the parameter list [o piface.S, l []S] and the
    result [*piface.S], not with the lists of the original. *)
Lemma wrapper_lists_differ :
  ~ (forall (env : Env) (pkg : Package) (impls : list string),
       buildImpls env pkg = Ok impls ->
       Forall2 (fun st text =>
         forall m, In m (Struct_Methods st) ->
           occurs (wrapper_method (Struct_Name st) (Method_Name m)
                     (Method_Params m) (Method_Results m)) text)
         (Package_Structs pkg) impls).
Proof.
  intros H.
  destruct (buildImpls ex_env ex_Package) as [impls| |] eqn:E;
    [| vm_compute in E; discriminate ..].
  specialize (H _ _ _ E). vm_compute in E. injection E as <-.
  inversion H as [| ? ? ? ? Hst _]; subst.
  specialize (Hst _ (or_introl eq_refl)).
  apply occurs_Contains in Hst. vm_compute in Hst. discriminate.
Qed.

(** ** The wrapper against the interface *)

Lemma wrapper_method_head_occurs (structName name : string)
    (params results : list Field) :
  occurs (wrapper_method_head structName name params results)
         (wrapper_method structName name params results).
Proof.
  unfold wrapper_method, wrapper_method_head.
  exists EmptyString,
    (LF +:+ "    return x.parent." +:+ name +:+ "(" +:+ arg_list params +:+ ")"
        +:+ LF +:+ "}").
  by rewrite !append_assoc.
Qed.

Lemma occurs_trans (x y z : string) : occurs x y -> occurs y z -> occurs x z.
Proof.
  intros (p1 & q1 & ->) (p2 & q2 & ->).
  exists (p2 +:+ p1), (q1 +:+ q2). by rewrite !append_assoc.
Qed.

Lemma map_wrapper_field_id (pkg : Package) (fields : list Field) :
  (forall f, In f fields -> wrapper_type pkg (Field_Type f) = Field_Type f) ->
  map (wrapper_field pkg) fields = fields.
Proof.
  induction fields as [|f l IH]; intros H; [reflexivity |].
  simpl. rewrite IH by (intros g Hg; apply H; by right).
  unfold wrapper_field. rewrite (H f (or_introl eq_refl)). by destruct f.
Qed.

(** C2, as the code has it.  For every struct of a package whose types
    are not empty, the interface declares for each field [F] of type [T]
    the signature [F() T] and for each method its signature, and the
    wrapper defines for each field [F] an accessor that returns the field
    [F] of the original and for each method a method of the same name
    with the same parameter and result names; in the wrapper every type
    is written as [wrapper_type] gives it, with the interface package in
    front of the name of an extracted struct.  Where that leaves every
    type of the struct as it is, the signatures of the wrapper are those
    of the interface. *)
Theorem wrapper_against_interface (env : Env) (pkg : Package) :
  template_Parse env TmplIface = None ->
  template_Parse env TmplImpl = None ->
  (forall st, In st (Package_Structs pkg) -> Struct_typed st) ->
  exists ifaces impls,
    buildIfaces env pkg = Ok ifaces /\
    buildImpls env pkg = Ok impls /\
    forall (i : nat) (st : Struct),
      Package_Structs pkg !! i = Some st ->
      exists iface impl,
        ifaces !! i = Some iface /\ impls !! i = Some impl /\
        (forall f, In f (Struct_Fields st) ->
           occurs (Field_Name f +:+ "() " +:+ Field_Type f) iface /\
           occurs ("func (x *" +:+ Struct_Name st +:+ ")" +:+ Field_Name f +:+
                   "() (" +:+ wrapper_type pkg (Field_Type f) +:+ ") {" +:+ LF +:+
                   "    return x.parent." +:+ Field_Name f +:+ LF +:+
                   "}") impl) /\
        (forall m, In m (Struct_Methods st) ->
           occurs (method_signature (Method_Name m) (Method_Params m)
                     (Method_Results m)) iface /\
           occurs (wrapper_method_head (Struct_Name st) (Method_Name m)
                     (map (wrapper_field pkg) (Method_Params m))
                     (map (wrapper_field pkg) (Method_Results m))) impl) /\
        ((forall typ, In typ (Struct_types st) -> wrapper_type pkg typ = typ) ->
         (forall f, In f (Struct_Fields st) ->
            occurs (wrapper_accessor (Struct_Name st) (Field_Name f) (Field_Type f))
                   impl) /\
         (forall m, In m (Struct_Methods st) ->
            occurs (wrapper_method_head (Struct_Name st) (Method_Name m)
                      (Method_Params m) (Method_Results m)) impl)).
Proof.
  intros Hi Hw Htyped.
  exists (map iface_text (Package_Structs pkg)),
         (map (impl_text pkg) (Package_Structs pkg)).
  split; [by apply buildIfaces_Ok |]. split; [by apply buildImpls_Ok |].
  intros i st Hst. exists (iface_text st), (impl_text pkg st).
  split; [by rewrite list_lookup_fmap, Hst |].
  split; [by rewrite list_lookup_fmap, Hst |].
  destruct (iface_text_occurs st) as [_ Hsig].
  destruct (impl_text_occurs pkg st) as (_ & Hacc & Hmeth).
  assert (Hheads : forall m, In m (Struct_Methods st) ->
            occurs (wrapper_method_head (Struct_Name st) (Method_Name m)
                      (map (wrapper_field pkg) (Method_Params m))
                      (map (wrapper_field pkg) (Method_Results m)))
                   (impl_text pkg st)).
  { intros m Hm. eapply occurs_trans; [apply wrapper_method_head_occurs |].
    by apply Hmeth. }
  split; [| split].
  - intros f Hf. split.
    + apply Hsig, in_or_app. left. by apply (in_map accessor_signature).
    + specialize (Hacc f Hf). unfold wrapper_accessor in Hacc. exact Hacc.
  - intros m Hm. split; [| by apply Hheads].
    apply Hsig, in_or_app. right. by apply (in_map Method_signature).
  - intros Hsame. split.
    + intros f Hf. rewrite <- (Hsame (Field_Type f)) at 1; [by apply Hacc |].
      apply in_or_app. left. by apply in_map.
    + intros m Hm. specialize (Hheads m Hm).
      rewrite !map_wrapper_field_id in Hheads; [exact Hheads | |].
      * intros f Hf. apply Hsame, in_or_app. right.
        apply in_flat_map. exists m. split; [exact Hm |].
        apply in_or_app. right. by apply in_map.
      * intros f Hf. apply Hsame, in_or_app. right.
        apply in_flat_map. exists m. split; [exact Hm |].
        apply in_or_app. left. by apply in_map.
Qed.

(** An instance: the struct [foo] of the
    package [p], whose types need no package in front. *)
Lemma wrapper_against_interface_witness :
  exists ifaces impls iface impl,
    buildIfaces ex_env ex_Package = Ok ifaces /\
    buildImpls ex_env ex_Package = Ok impls /\
    ifaces !! 1%nat = Some iface /\ impls !! 1%nat = Some impl /\
    occurs "Bar() ()" iface /\
    occurs "func (x *foo) Bar() () {" impl.
Proof.
  destruct (wrapper_against_interface ex_env ex_Package)
    as (ifaces & impls & Hi & Hw & H);
    [reflexivity | reflexivity | typed_by_cases |].
  destruct (H 1%nat (mkStruct "foo" [mkMethod "Bar" [] []] [] None) eq_refl)
    as (iface & impl & Ei & Ew & _ & Hm & _).
  destruct (Hm (mkMethod "Bar" [] []) (or_introl eq_refl)) as [H1 H2].
  exists ifaces, impls, iface, impl. by repeat split.
Defined.

(** C2, as it is stated, fails: in the package [p] the field [Next] of
    [S] is a pointer to [S]; the interface declares the accessor [Next]
    with that type, the wrapper defines it with a pointer to [piface.S]. *)
Lemma wrapper_signature_differs :
  ~ (forall (env : Env) (pkg : Package) (ifaces impls : list string),
       buildIfaces env pkg = Ok ifaces ->
       buildImpls env pkg = Ok impls ->
       forall (i : nat) (st : Struct) (iface impl : string),
         Package_Structs pkg !! i = Some st ->
         ifaces !! i = Some iface -> impls !! i = Some impl ->
         (forall f, In f (Struct_Fields st) ->
            occurs (accessor_signature f) iface /\
            occurs (wrapper_accessor (Struct_Name st) (Field_Name f) (Field_Type f))
                   impl) /\
         (forall m, In m (Struct_Methods st) ->
            occurs (Method_signature m) iface /\
            occurs (wrapper_method_head (Struct_Name st) (Method_Name m)
                      (Method_Params m) (Method_Results m)) impl)).
Proof.
  intros H.
  destruct (buildIfaces ex_env ex_Package) as [ifaces| |] eqn:Ei;
    [| vm_compute in Ei; discriminate ..].
  destruct (buildImpls ex_env ex_Package) as [impls| |] eqn:Ew;
    [| vm_compute in Ew; discriminate ..].
  specialize (H _ _ _ _ Ei Ew 0%nat).
  vm_compute in Ei. injection Ei as <-.
  vm_compute in Ew. injection Ew as <-.
  destruct (H _ _ _ eq_refl eq_refl eq_refl) as [Hf _].
  destruct (Hf (mkField "Next" "*S")) as [_ Hw]; [right; left; reflexivity |].
  apply occurs_Contains in Hw. vm_compute in Hw. discriminate.
Qed.

(** ** Two runs on the same input *)

Lemma genCode_subpkg_Ok (env : Env) (basePkg : string)
    (ifaces impls ifaces' impls' : gmap string string) (name : string) (pkg : Package) :
  genCode_subpkg env basePkg (ifaces, impls) (name, pkg) = Ok (ifaces', impls') ->
  exists ifacePkg implPkg,
    ifaces' = <[name +:+ "iface" := ifacePkg]> ifaces /\
    impls' = <[name := implPkg]> impls.
Proof.
  unfold genCode_subpkg. intros H.
  destruct (buildIfaces env pkg); simpl in H; try discriminate.
  destruct (check FromTemplateParse (template_Parse env TmplIfacePkg));
    simpl in H; try discriminate.
  destruct (lift FromFormat (format_Source env _)) as [ifacePkg| |];
    simpl in H; try discriminate.
  destruct (buildImpls env pkg); simpl in H; try discriminate.
  destruct (check FromTemplateParse (template_Parse env TmplImplPkg));
    simpl in H; try discriminate.
  destruct (lift FromFormat (format_Source env _)) as [implPkg| |];
    simpl in H; try discriminate.
  inversion H; subst. by exists ifacePkg, implPkg.
Qed.

(** The keys of the two maps after the loop of [genCode]. *)
Lemma genCode_loop_keys (env : Env) (basePkg : string) (l : list (string * Package))
    (ifaces impls ifaces' impls' : gmap string string) :
  loopM (genCode_subpkg env basePkg) l (ifaces, impls) = Ok (ifaces', impls') ->
  dom impls' = dom impls ∪ list_to_set (map fst l) /\
  dom ifaces' =
    dom ifaces ∪ list_to_set (map (fun e => fst e +:+ "iface") l).
Proof.
  revert ifaces impls. induction l as [|[name pkg] l IH]; intros ifaces impls H.
  - simpl in H. inversion H. simpl. split; set_solver.
  - change (loopM (genCode_subpkg env basePkg) ((name, pkg) :: l) (ifaces, impls))
      with (genCode_subpkg env basePkg (ifaces, impls) (name, pkg) ≫=
            loopM (genCode_subpkg env basePkg) l) in H.
    destruct (genCode_subpkg env basePkg (ifaces, impls) (name, pkg))
      as [[ifaces1 impls1]| |] eqn:E; simpl in H; try discriminate.
    apply genCode_subpkg_Ok in E as (ifacePkg & implPkg & -> & ->).
    destruct (IH _ _ H) as [H1 H2]. rewrite H1, H2.
    rewrite !dom_insert_L. simpl. split; set_solver.
Qed.

Lemma getSubpackages_loop_keys (sch : Sched) (env : Env) (pkg : string)
    (l : list (string * AstPackage)) (m m' : gmap string Package) :
  loopM (getSubpackages_subpkg sch env pkg) l m = Ok m' ->
  dom m' = dom m ∪ list_to_set (map fst l).
Proof.
  revert m. induction l as [|[name p] l IH]; intros m H.
  - simpl in H. inversion H; subst. simpl. set_solver.
  - simpl in H. destruct (getStructs sch env p); simpl in H; try discriminate.
    rewrite (IH _ H), dom_insert_L. simpl. set_solver.
Qed.

Lemma range_keys {V : Type} (sch : Sched) (site : Loop) (m : gmap string V) :
  list_to_set (map fst (range sch site m)) =@{gset string} dom m.
Proof.
  apply set_eq. intros k.
  rewrite elem_of_list_to_set, elem_of_dom, list_elem_of_In, in_map_iff.
  split.
  - intros ([k' v] & <- & Hin). apply elem_of_range in Hin. by exists v.
  - intros [v Hv]. exists (k, v). split; [reflexivity |]. by apply elem_of_range.
Qed.

(** The names of the packages that a successful run of [getSubpackages]
    returns are those that [parsePkg] has found. *)
Lemma getSubpackages_keys (sch : Sched) (env : Env) (pkg : string)
    (subpkgs : gmap string Package) :
  getSubpackages sch env pkg = Ok subpkgs ->
  exists parsed, parsePkg env pkg = Ok parsed /\ dom subpkgs = dom parsed.
Proof.
  unfold getSubpackages. intros H.
  destruct (parsePkg env pkg) as [parsed| |]; simpl in H; try discriminate.
  exists parsed. split; [reflexivity |].
  apply getSubpackages_loop_keys in H. rewrite H, range_keys. set_solver.
Qed.

(** Two runs of [genCode] on the same input that succeed return maps
    with the same keys. *)
Lemma genCode_keys (sch1 sch2 : Sched) (env : Env) (pkgPath basePkg : string)
    (ifaces1 impls1 ifaces2 impls2 : gmap string string) :
  genCode sch1 env pkgPath basePkg = Ok (ifaces1, impls1) ->
  genCode sch2 env pkgPath basePkg = Ok (ifaces2, impls2) ->
  dom ifaces1 = dom ifaces2 /\ dom impls1 = dom impls2.
Proof.
  unfold genCode. intros H1 H2.
  destruct (getSubpackages sch1 env pkgPath) as [s1| |] eqn:E1;
    simpl in H1; try discriminate.
  destruct (getSubpackages sch2 env pkgPath) as [s2| |] eqn:E2;
    simpl in H2; try discriminate.
  apply getSubpackages_keys in E1 as (parsed & Hp & D1).
  apply getSubpackages_keys in E2 as (parsed' & Hp' & D2).
  rewrite Hp in Hp'. inversion Hp'; subst parsed'.
  apply genCode_loop_keys in H1 as [Hw1 Hi1].
  apply genCode_loop_keys in H2 as [Hw2 Hi2].
  split.
  - rewrite Hi1, Hi2. f_equal.
    assert (K : forall (sch : Sched) (s : gmap string Package),
              dom s = dom parsed ->
              list_to_set (map (fun e => fst e +:+ "iface")
                               (range sch LoopGenCode s)) =@{gset string}
              set_map (fun n => n +:+ "iface") (dom parsed)).
    { intros sch s Hs. rewrite <- Hs. apply set_eq. intros k.
      rewrite elem_of_list_to_set, elem_of_map, list_elem_of_In, in_map_iff.
      split.
      - intros ([n v] & <- & He). exists n. split; [reflexivity |].
        apply elem_of_dom. exists v. by apply elem_of_range in He.
      - intros (n & -> & Hn). apply elem_of_dom in Hn as [v Hv].
        exists (n, v). split; [reflexivity |]. by apply elem_of_range. }
    by rewrite (K sch1 s1 D1), (K sch2 s2 D2).
  - rewrite Hw1, Hw2, !range_keys, D1, D2. reflexivity.
Qed.

(** C7, as it is stated, fails: the package [p] has two structs with
    methods; the run that visits the maps in ascending order of the keys
    and the run that visits them in descending order write the
    interfaces in different orders. *)
Lemma genCode_order_dependent :
  ~ (forall (sch1 sch2 : Sched) (env : Env) (pkgPath basePkg : string),
       genCode sch1 env pkgPath basePkg = genCode sch2 env pkgPath basePkg).
Proof.
  intros H. specialize (H sch_az sch_za ex_env "p" "base").
  apply (f_equal (fun r => match r with
                           | Ok (ifaces, _) => ifaces !! "piface"
                           | _ => None
                           end)) in H.
  vm_compute in H. discriminate.
Qed.

(** ** Errors *)

Lemma bind_Err {A B : Type} (r : Res A) (k : A -> Res B) (e : Error) :
  (r ≫= k) = Err e <-> r = Err e \/ exists a, r = Ok a /\ k a = Err e.
Proof.
  destruct r as [a|e'|]; simpl; split.
  - intros H. right. exists a. split; [reflexivity | exact H].
  - intros [H | (a' & H & H')]; [discriminate |]. by inversion H; subst.
  - intros H. left. change (@Err B e' = Err e) in H. by inversion H.
  - intros [H | (a' & H & _)]; [| discriminate].
    change (@Err B e' = Err e). by inversion H.
  - intros H. exfalso. change (@Panic B = Err e) in H. discriminate.
  - intros [H | (a' & H & _)]; discriminate.
Qed.

Lemma check_Ok (src : ErrSource) (r : option string) (u : unit) :
  check src r = Ok u <-> r = None.
Proof. destruct r, u; simpl; split; congruence. Qed.

Lemma lift_Ok {A : Type} (src : ErrSource) (r : A + string) (a : A) :
  lift src r = Ok a <-> r = inl a.
Proof. destruct r; simpl; split; congruence. Qed.

Lemma genCode_subpkg_Err (env : Env) (basePkg name : string) (pkg : Package)
    (maps : gmap string string * gmap string string) (e : Error) :
  genCode_subpkg env basePkg maps (name, pkg) = Err e <->
  subpkg_first_error env basePkg name pkg e.
Proof.
  destruct maps as [ifacesMap implsMap].
  unfold genCode_subpkg, subpkg_first_error.
  rewrite bind_Err. apply or_iff_compat_l.
  apply exist_proper. intros ifaces. apply and_iff_compat_l.
  rewrite bind_Err. apply or_iff_compat_l.
  setoid_rewrite check_Ok.
  split; [intros ([] & H1 & H2) | intros [H1 H2]].
  2:{ exists tt. split; [exact H1 |]. revert H2. rewrite bind_Err.
      intros [H2 | (ifacePkg & H2 & H3)]; [by left | right].
      exists ifacePkg. split; [by apply lift_Ok |].
      apply bind_Err. destruct H3 as [H3 | (impls & H3 & H4)]; [by left | right].
      exists impls. split; [exact H3 |].
      apply bind_Err. destruct H4 as [H4 | [H4 H5]]; [by left | right].
      exists tt. split; [by apply check_Ok |].
      apply bind_Err. by left. }
  split; [exact H1 |]. revert H2. rewrite bind_Err.
  intros [H2 | (ifacePkg & H2 & H3)]; [by left | right].
  exists ifacePkg. split; [by apply lift_Ok in H2 |].
  apply bind_Err in H3. destruct H3 as [H3 | (impls & H3 & H4)]; [by left | right].
  exists impls. split; [exact H3 |].
  apply bind_Err in H4. destruct H4 as [H4 | ([] & H4 & H5)]; [by left | right].
  split; [by apply check_Ok in H4 |].
  apply bind_Err in H5. destruct H5 as [H5 | (implPkg & _ & H5)];
    [exact H5 | discriminate].
Qed.

Lemma no_Err_Ok {A : Type} (a : A) : no_Err (Ok a).
Proof. intros e. discriminate. Qed.

Lemma no_Err_Panic {A : Type} : no_Err (@Panic A).
Proof. intros e. discriminate. Qed.

Lemma no_Err_bind {A B : Type} (r : Res A) (k : A -> Res B) :
  no_Err r -> (forall a, no_Err (k a)) -> no_Err (r ≫= k).
Proof.
  intros Hr Hk e H. apply bind_Err in H as [H | (a & _ & H)].
  - by apply (Hr e).
  - by apply (Hk a e).
Qed.

Lemma no_Err_loopM {A S : Type} (f : S -> A -> Res S) (l : list A) (s : S) :
  (forall s x, In x l -> no_Err (f s x)) -> no_Err (loopM f l s).
Proof.
  intros Hf e H. apply loopM_Err in H as (l1 & x & l2 & s' & -> & _ & H).
  apply (Hf s' x) with (e := e); [| exact H]. apply in_or_app. right. by left.
Qed.

Lemma no_Err_slice (src : string) (lo hi : Z) : no_Err (slice src lo hi).
Proof. unfold slice. destruct (_ && _); [apply no_Err_Ok | apply no_Err_Panic]. Qed.

Lemma no_Err_at_index {A : Type} (l : list A) (i : Z) : no_Err (at_index l i).
Proof.
  unfold at_index. destruct (0 <=? i); [| apply no_Err_Panic].
  destruct (nth_error l (Z.to_nat i)); [apply no_Err_Ok | apply no_Err_Panic].
Qed.

Lemma no_Err_getMethodFields (src : string) (astFields : list AstField) :
  no_Err (getMethodFields src astFields).
Proof.
  apply no_Err_loopM. intros s x _.
  apply no_Err_bind; [apply no_Err_slice | intros; apply no_Err_Ok].
Qed.

Lemma no_Err_GetReceiverTypeName (src : string) (decl : Decl) :
  no_Err (GetReceiverTypeName src decl).
Proof.
  destruct decl as [fd | specs]; simpl; [| apply no_Err_Ok].
  destruct (fd_Recv fd); [| apply no_Err_Ok].
  apply no_Err_bind; [apply no_Err_at_index |]. intros f.
  apply no_Err_bind; [apply no_Err_slice |]. intros st.
  destruct st as [|c st]; [apply no_Err_Ok |].
  destruct c as [[] [] [] [] [] [] [] []]; apply no_Err_Ok.
Qed.

(** [getMethods] returns no error: a file that cannot be read is passed
    over. *)
Lemma no_Err_getMethods (sch : Sched) (env : Env) (pkg : AstPackage) :
  no_Err (getMethods sch env pkg).
Proof.
  apply no_Err_loopM. intros mm [fileName astFile] _.
  apply no_Err_loopM. intros mm' decl _. unfold getMethods_decl.
  destruct (ioutil_ReadFile env fileName) as [src|msg]; [| apply no_Err_Ok].
  apply no_Err_bind; [apply no_Err_GetReceiverTypeName |].
  intros [a [fd|]]; [| apply no_Err_Ok].
  destruct (ast_IsExported (fd_Name fd)); [| apply no_Err_Ok].
  apply no_Err_bind; [apply no_Err_getMethodFields |]. intros params.
  apply no_Err_bind; [| intros; apply no_Err_Ok].
  destruct (fd_Results fd); [apply no_Err_getMethodFields | apply no_Err_Ok].
Qed.

Lemma no_Err_getFields_visit (src : string) (fm : gmap string (list Field))
    (st : StructTypeNode) :
  no_Err (getFields_visit src fm st).
Proof.
  unfold getFields_visit, getStructName.
  apply no_Err_bind.
  { apply no_Err_bind; [apply no_Err_at_index | intros; apply no_Err_at_index]. }
  intros name. destruct (ast_IsExported name); [| apply no_Err_Ok].
  apply no_Err_bind; [| intros; apply no_Err_Ok].
  apply no_Err_loopM. intros s x _.
  destruct (AstField_Names x) as [|n ns]; [apply no_Err_Ok |].
  destruct (ast_IsExported n); [| apply no_Err_Ok].
  apply no_Err_bind; [apply no_Err_slice | intros; apply no_Err_Ok].
Qed.

(** The only error of [getFields] for a file is that of parsing it
    again, and only when the file could be read. *)
Lemma getFields_file_Err (env : Env) (fm : gmap string (list Field))
    (fileName : string) (astFile : AstFile) (e : Error) :
  getFields_file env fm (fileName, astFile) = Err e <->
  exists src msg,
    ioutil_ReadFile env fileName = inl src /\
    parser_ParseFile_again env fileName = Some msg /\
    e = mkError FromParseFile msg.
Proof.
  unfold getFields_file.
  destruct (ioutil_ReadFile env fileName) as [src|msg0].
  - rewrite bind_Err. split.
    + intros [H | (a & _ & H)].
      * destruct (parser_ParseFile_again env fileName) as [msg|]; simpl in H;
          [| discriminate]. inversion H; subst. by exists src, msg.
      * exfalso. revert H. apply no_Err_loopM. intros; apply no_Err_getFields_visit.
    + intros (src' & msg & _ & -> & ->). by left.
  - split; [discriminate |]. intros (src & msg & H & _). discriminate.
Qed.

(** The error of the extraction of the shapes of a package is the error
    of parsing again the first file, in the order of the run, that can be
    read and cannot be parsed. *)
Lemma getStructs_Err (sch : Sched) (env : Env) (pkg : AstPackage) (e : Error) :
  getStructs sch env pkg = Err e <->
  exists methods done fileName astFile rest fieldMap src msg,
    getMethods sch env pkg = Ok methods /\
    range sch LoopFieldFiles (AstPackage_Files pkg) =
      done ++ (fileName, astFile) :: rest /\
    loopM (getFields_file env) done ∅ = Ok fieldMap /\
    ioutil_ReadFile env fileName = inl src /\
    parser_ParseFile_again env fileName = Some msg /\
    e = mkError FromParseFile msg.
Proof.
  unfold getStructs. rewrite bind_Err. split.
  - intros [H | (methods & Hm & H)]; [by apply no_Err_getMethods in H |].
    apply bind_Err in H as [H | (fields & _ & H)]; [| discriminate].
    apply loopM_Err in H as (done & [fileName astFile] & rest & fm & E & Hd & H).
    apply getFields_file_Err in H as (src & msg & Hr & Hp & ->).
    by exists methods, done, fileName, astFile, rest, fm, src, msg.
  - intros (methods & done & fileName & astFile & rest & fm & src & msg
            & Hm & E & Hd & Hr & Hp & ->).
    right. exists methods. split; [exact Hm |].
    apply bind_Err. left. apply loopM_Err.
    exists done, (fileName, astFile), rest, fm.
    split; [exact E |]. split; [exact Hd |].
    apply getFields_file_Err. by exists src, msg.
Qed.

Lemma getSubpackages_subpkg_Err (sch : Sched) (env : Env) (pkg name : string)
    (m : gmap string Package) (p : AstPackage) (e : Error) :
  getSubpackages_subpkg sch env pkg m (name, p) = Err e <->
  getStructs sch env p = Err e.
Proof.
  unfold getSubpackages_subpkg. rewrite bind_Err. split.
  - intros [H | (structs & _ & H)]; [exact H | discriminate].
  - intros H. by left.
Qed.

(** The error of [genCode] is the error of its first failing step. *)
Lemma genCode_Err (sch : Sched) (env : Env) (pkgPath basePkg : string) (e : Error) :
  genCode sch env pkgPath basePkg = Err e <->
  parsePkg env pkgPath = Err e \/
  (exists parsed done name p rest m,
     parsePkg env pkgPath = Ok parsed /\
     range sch LoopSubpackages parsed = done ++ (name, p) :: rest /\
     loopM (getSubpackages_subpkg sch env pkgPath) done ∅ = Ok m /\
     getStructs sch env p = Err e) \/
  (exists subpkgs done name pkg rest maps,
     getSubpackages sch env pkgPath = Ok subpkgs /\
     range sch LoopGenCode subpkgs = done ++ (name, pkg) :: rest /\
     loopM (genCode_subpkg env basePkg) done (∅, ∅) = Ok maps /\
     subpkg_first_error env basePkg name pkg e).
Proof.
  unfold genCode at 1. rewrite bind_Err. unfold getSubpackages at 1.
  rewrite bind_Err. split.
  + intros [[H | (parsed & Hp & H)] | (subpkgs & Hs & H)].
    * by left.
    * right. left.
      apply loopM_Err in H as (done & [name p] & rest & m & E & Hd & H).
      apply getSubpackages_subpkg_Err in H.
      by exists parsed, done, name, p, rest, m.
    * right. right.
      apply loopM_Err in H as (done & [name pkg] & rest & maps & E & Hd & H).
      apply genCode_subpkg_Err in H.
      by exists subpkgs, done, name, pkg, rest, maps.
  + intros [H | [(parsed & done & name & p & rest & m & Hp & E & Hd & H)
                | (subpkgs & done & name & pkg & rest & maps & Hs & E & Hd & H)]].
    * left. by left.
    * left. right. exists parsed. split; [exact Hp |].
      apply loopM_Err. exists done, (name, p), rest, m.
      split; [exact E |]. split; [exact Hd |].
      by apply getSubpackages_subpkg_Err.
    * right. exists subpkgs. split; [exact Hs |].
      apply loopM_Err. exists done, (name, pkg), rest, maps.
      split; [exact E |]. split; [exact Hd |].
      by apply genCode_subpkg_Err.
Qed.

(** C4, as the code has it.  [genCode] returns an error exactly when
    parsing the package fails, or extracting the shapes of a package of
    the directory fails after the packages before it have been
    extracted, or a step for a sub-package (rendering the interfaces,
    parsing a template, formatting, rendering the wrappers) fails after
    the sub-packages before it have been generated; the error returned is
    the error of that first failing step.  The extraction fails only by
    parsing a file again.  A file that cannot be read is passed over by
    [getMethods] and by [getFields] without an error. *)
Theorem genCode_first_error (sch : Sched) (env : Env) (pkgPath basePkg : string) :
  (forall e,
     genCode sch env pkgPath basePkg = Err e <->
     parsePkg env pkgPath = Err e \/
     (exists parsed done name p rest m,
        parsePkg env pkgPath = Ok parsed /\
        range sch LoopSubpackages parsed = done ++ (name, p) :: rest /\
        loopM (getSubpackages_subpkg sch env pkgPath) done ∅ = Ok m /\
        getStructs sch env p = Err e) \/
     (exists subpkgs done name pkg rest maps,
        getSubpackages sch env pkgPath = Ok subpkgs /\
        range sch LoopGenCode subpkgs = done ++ (name, pkg) :: rest /\
        loopM (genCode_subpkg env basePkg) done (∅, ∅) = Ok maps /\
        subpkg_first_error env basePkg name pkg e)) /\
  (forall p e,
     getStructs sch env p = Err e ->
     exists fileName src msg,
       is_Some (AstPackage_Files p !! fileName) /\
       ioutil_ReadFile env fileName = inl src /\
       parser_ParseFile_again env fileName = Some msg /\
       e = mkError FromParseFile msg) /\
  (forall fileName msg,
     ioutil_ReadFile env fileName = inr msg ->
     (forall methodMap decl,
        getMethods_decl env fileName methodMap decl = Ok methodMap) /\
     (forall fieldMap astFile,
        getFields_file env fieldMap (fileName, astFile) = Ok fieldMap)).
Proof.
  split; [| split].
  - intros e. apply genCode_Err.
  - intros p e H.
    apply getStructs_Err in H
      as (methods & done & fileName & astFile & rest & fm & src & msg
          & _ & E & _ & Hr & Hp & ->).
    exists fileName, src, msg. split; [| by repeat split].
    exists astFile. apply (elem_of_range sch LoopFieldFiles).
    rewrite E. apply in_or_app. right. by left.
  - intros fileName msg Hr. split.
    + intros mm decl. unfold getMethods_decl. by rewrite Hr.
    + intros fm astFile. unfold getFields_file. by rewrite Hr.
Qed.

(** An instance: the directory of the package [q]
    cannot be read. *)
Lemma genCode_first_error_witness :
  genCode sch_az ex_env "q" "base" =
  Err (mkError FromReadDir "open /go/src/q: no such file or directory").
Proof.
  destruct (genCode_first_error sch_az ex_env "q" "base") as [H _].
  apply H. left. vm_compute. reflexivity.
Defined.

(** C4, as it is stated, fails: in [ex_env_unreadable] the file [a.go]
    of the package [p] cannot be read during the extraction; [genCode]
    passes over the error and succeeds, with packages that hold no
    interface and no wrapper. *)
Lemma read_error_discarded :
  ~ (forall (sch : Sched) (env : Env) (pkgPath basePkg : string)
            (parsed : gmap string AstPackage) (name : string) (pkg : AstPackage)
            (fileName : string) (astFile : AstFile) (msg : string),
       parsePkg env pkgPath = Ok parsed ->
       parsed !! name = Some pkg ->
       AstPackage_Files pkg !! fileName = Some astFile ->
       ioutil_ReadFile env fileName = inr msg ->
       genCode sch env pkgPath basePkg = Err (mkError FromReadFile msg)).
Proof.
  intros H.
  specialize (H sch_az ex_env_unreadable "p" "base" {[ "p" := ex_pkg ]} "p" ex_pkg
                "/go/src/p/a.go" ex_file
                "open /go/src/p/a.go: permission denied").
  assert (E : genCode sch_az ex_env_unreadable "p" "base" =
              Err (mkError FromReadFile "open /go/src/p/a.go: permission denied")).
  { apply H; vm_compute; reflexivity. }
  vm_compute in E. discriminate.
Qed.

(** ** The errors that reach [main] *)

Lemma from_no_Err {A : Type} (srcs : list ErrSource) (r : Res A) :
  no_Err r -> from srcs r.
Proof. intros H e He. by destruct (H e). Qed.

Lemma from_bind {A B : Type} (srcs : list ErrSource) (r : Res A) (k : A -> Res B) :
  from srcs r -> (forall a, from srcs (k a)) -> from srcs (r ≫= k).
Proof.
  intros Hr Hk e H. apply bind_Err in H as [H | (a & _ & H)].
  - by apply Hr.
  - by apply (Hk a).
Qed.

Lemma from_loopM {A S : Type} (srcs : list ErrSource) (f : S -> A -> Res S)
    (l : list A) (s : S) :
  (forall s x, from srcs (f s x)) -> from srcs (loopM f l s).
Proof.
  intros Hf e H. apply loopM_Err in H as (l1 & x & l2 & s' & _ & _ & H).
  by apply (Hf s' x).
Qed.

Lemma from_eachM {A B : Type} (srcs : list ErrSource) (f : A -> Res B) (l : list A) :
  (forall x, from srcs (f x)) -> from srcs (eachM f l).
Proof.
  intros Hf. induction l as [|x l IH]; simpl; [intros e; discriminate |].
  apply from_bind; [apply Hf |]. intros y.
  apply from_bind; [exact IH |]. intros ys e. discriminate.
Qed.

Lemma from_lift {A : Type} (srcs : list ErrSource) (src : ErrSource) (r : A + string) :
  In src srcs -> from srcs (lift src r).
Proof. intros H e He. destruct r; simpl in He; inversion He; subst. exact H. Qed.

Lemma from_check (srcs : list ErrSource) (src : ErrSource) (r : option string) :
  In src srcs -> from srcs (check src r).
Proof. intros H e He. destruct r; simpl in He; inversion He; subst. exact H. Qed.

Lemma from_call (srcs : list ErrSource) (env : Env) (name : string) (r : Res string) :
  In FromTemplateExec srcs -> no_Err r -> from srcs (call env name r).
Proof.
  intros H Hr e He. destruct r as [a|e'|]; simpl in He.
  - discriminate.
  - by destruct (Hr e').
  - inversion He; subst. exact H.
Qed.

Lemma no_Err_maybeAddIfacePkg (pkg : Package) (typ : string) :
  no_Err (maybeAddIfacePkg pkg typ).
Proof. destruct typ; [apply no_Err_Panic | apply no_Err_Ok]. Qed.

Lemma no_Err_buildImpls_toList (pkg : Package) (fields : list Field) :
  no_Err (buildImpls_toList pkg fields).
Proof.
  apply no_Err_bind; [| intros; apply no_Err_Ok].
  apply no_Err_loopM. intros [list prefix] f _.
  apply no_Err_bind; [apply no_Err_maybeAddIfacePkg | intros; apply no_Err_Ok].
Qed.

Lemma from_parsePkg (env : Env) (pkg : string) :
  from genCode_sources (parsePkg env pkg).
Proof.
  unfold parsePkg, parser_ParseDir.
  apply from_bind; [apply from_lift; simpl; tauto |]. intros list.
  destruct (fold_left _ list _) as [pkgs [msg|]]; intros e He;
    inversion He; subst; simpl; tauto.
Qed.

Lemma from_buildIfaces (env : Env) (pkg : Package) :
  from genCode_sources (buildIfaces env pkg).
Proof.
  apply from_bind; [apply from_check; simpl; tauto |]. intros _.
  apply from_loopM. intros s x e He. discriminate.
Qed.

Lemma from_buildImpls (env : Env) (pkg : Package) :
  from genCode_sources (buildImpls env pkg).
Proof.
  apply from_bind; [apply from_check; simpl; tauto |]. intros _.
  apply from_loopM. intros s st.
  apply from_bind; [| intros buf e He; discriminate].
  unfold impl_Execute.
  apply from_bind.
  { apply from_eachM. intros f.
    apply from_bind; [| intros typ e He; discriminate].
    apply from_call; [simpl; tauto | apply no_Err_maybeAddIfacePkg]. }
  intros fields. apply from_bind; [| intros methods e He; discriminate].
  apply from_eachM. intros m.
  apply from_bind;
    [apply from_call; [simpl; tauto | apply no_Err_buildImpls_toList] |].
  intros params. apply from_bind; [| intros results e He; discriminate].
  apply from_call; [simpl; tauto | apply no_Err_buildImpls_toList].
Qed.

Lemma from_genCode (sch : Sched) (env : Env) (pkgPath basePkg : string) :
  from genCode_sources (genCode sch env pkgPath basePkg).
Proof.
  intros e He.
  apply genCode_Err in He
    as [H | [(parsed & done & name & p & rest & m & _ & _ & _ & H)
            | (subpkgs & done & name & pkg & rest & maps & _ & _ & _ & H)]].
  - exact (from_parsePkg _ _ _ H).
  - apply getStructs_Err in H
      as (? & ? & ? & ? & ? & ? & ? & ? & _ & _ & _ & _ & _ & ->).
    simpl. tauto.
  - destruct H as [H | (ifaces & _ & H)]; [exact (from_buildIfaces _ _ _ H) |].
    destruct H as [H | (_ & H)];
      [apply (from_check genCode_sources) in H; [exact H | simpl; tauto] |].
    destruct H as [H | (ifacePkg & _ & H)];
      [apply (from_lift genCode_sources) in H; [exact H | simpl; tauto] |].
    destruct H as [H | (impls & _ & H)]; [exact (from_buildImpls _ _ _ H) |].
    destruct H as [H | (_ & H)];
      [apply (from_check genCode_sources) in H; [exact H | simpl; tauto] |].
    apply (from_lift genCode_sources) in H; [exact H | simpl; tauto].
Qed.

Lemma main_write_from (env : Env) (out : string) (pkgs : list (string * string))
    (evs : list Event) (err : Error) :
  main_write env out pkgs = (evs, Some err) ->
  In (err_source err) [FromMkdirAll; FromWriteFile].
Proof.
  revert evs. induction pkgs as [|[pkgName pkg] l IH]; intros evs H; simpl in H.
  - discriminate.
  - destruct (os_MkdirAll env _) as [msg|].
    { inversion H; subst. simpl. tauto. }
    destruct (ioutil_WriteFile env _ pkg) as [msg|].
    { inversion H; subst. simpl. tauto. }
    destruct (main_write env out l) as [evs' r] eqn:E.
    inversion H; subst. by apply (IH evs').
Qed.

(** [main_write] writes nothing to standard error. *)
Lemma main_write_stderr (env : Env) (out : string) (pkgs : list (string * string))
    (evs : list Event) (r : option Error) :
  main_write env out pkgs = (evs, r) -> stderr evs = Some EmptyString.
Proof.
  revert evs. induction pkgs as [|[pkgName pkg] l IH]; intros evs H; simpl in H.
  - by inversion H.
  - destruct (os_MkdirAll env _) as [msg|]; [by inversion H |].
    destruct (ioutil_WriteFile env _ pkg) as [msg|]; [by inversion H |].
    destruct (main_write env out l) as [evs' r'] eqn:E.
    inversion H; subst. simpl. by apply IH.
Qed.

Lemma stderr_app (evs evs' : list Event) :
  stderr evs = Some EmptyString -> stderr (evs ++ evs') = stderr evs'.
Proof.
  induction evs as [|ev evs IH]; intros H; [reflexivity |].
  destruct ev as [s | format | path | path data]; simpl in *.
  - destruct (stderr evs); simpl in H; [| discriminate].
    inversion H as [E]. destruct s; discriminate.
  - destruct (fmt_Sprintf format) as [s|]; simpl in H; [| discriminate].
    destruct (stderr evs) as [t|] eqn:Et; simpl in H; [| discriminate].
    inversion H as [E]. destruct s; [| discriminate].
    rewrite append_nil_l in E. subst t.
    rewrite IH by reflexivity. simpl. by destruct (stderr evs').
  - by apply IH.
  - by apply IH.
Qed.

(** A format without a percent sign is printed as it is. *)
Lemma fmt_Sprintf_plain (format : string) :
  has_byte "%" format = false -> fmt_Sprintf format = Some format.
Proof.
  induction format as [|c s IH]; intros H; [reflexivity |].
  simpl in H. apply orb_false_elim in H as [Hc Hs].
  simpl. rewrite Hc, (IH Hs). reflexivity.
Qed.

Lemma main_steps_stderr (sch : Sched) (env : Env) (in_ out : string)
    (evs : list Event) (r : Res unit) :
  main_steps sch env in_ out = (evs, r) -> stderr evs = Some EmptyString.
Proof.
  unfold main_steps. intros H.
  destruct (filepath_Abs env out) as [absOut|msg]; [| by inversion H].
  destruct (genCode sch env in_ _) as [[ifacePkgs implPkgs]|e|];
    [| by inversion H ..].
  destruct (main_write env absOut (range sch LoopMainIface ifacePkgs))
    as [evs1 [e1|]] eqn:E1.
  { inversion H; subst. by apply main_write_stderr in E1. }
  destruct (main_write env absOut (range sch LoopMainImpl implPkgs))
    as [evs2 r2] eqn:E2.
  apply main_write_stderr in E1. apply main_write_stderr in E2.
  assert (evs = evs1 ++ evs2) as -> by (destruct r2; by inversion H).
  by rewrite stderr_app.
Qed.

Lemma main_steps_from (sch : Sched) (env : Env) (in_ out : string)
    (evs : list Event) (err : Error) :
  main_steps sch env in_ out = (evs, Err err) ->
  In (err_source err)
     [FromAbs; FromReadDir; FromParseFile; FromTemplateParse; FromTemplateExec;
      FromFormat; FromMkdirAll; FromWriteFile].
Proof.
  unfold main_steps. intros H.
  destruct (filepath_Abs env out) as [absOut|msg].
  2:{ inversion H; subst. simpl. tauto. }
  destruct (genCode sch env in_ _) as [[ifacePkgs implPkgs]|e|] eqn:Eg.
  - destruct (main_write env absOut (range sch LoopMainIface ifacePkgs))
      as [evs1 [e1|]] eqn:E1.
    { inversion H; subst. apply main_write_from in E1. simpl in *. tauto. }
    destruct (main_write env absOut (range sch LoopMainImpl implPkgs))
      as [evs2 [e2|]] eqn:E2; [| discriminate].
    inversion H; subst. apply main_write_from in E2. simpl in *. tauto.
  - inversion H; subst. apply from_genCode in Eg. simpl in *. tauto.
  - discriminate.
Qed.

(** C6, as the code has it.  An error that reaches [main] ends the run
    at once with exit status 1, after [main] has handed the text of the
    error to [fmt.Fprintf] as its format; when the text holds no percent
    sign, what the run has written to standard error is that text.  The
    error comes from resolving the output directory, from reading or
    parsing the package, from parsing or executing a template, from
    formatting, from making a directory or from writing a file. *)
Theorem main_error_surfaced (sch : Sched) (env : Env) (in_ out : string)
    (evs : list Event) (err : Error) :
  in_ <> EmptyString ->
  main_steps sch env in_ out = (evs, Err err) ->
  main sch env in_ out = (evs ++ [Stderr_Fprintf (err_Error err)], ExitCode 1) /\
  (has_byte "%" (err_Error err) = false ->
   stderr (fst (main sch env in_ out)) = Some (err_Error err)) /\
  In (err_source err)
     [FromAbs; FromReadDir; FromParseFile; FromTemplateParse; FromTemplateExec;
      FromFormat; FromMkdirAll; FromWriteFile].
Proof.
  intros Hin H.
  assert (Hmain : main sch env in_ out =
                  (evs ++ [Stderr_Fprintf (err_Error err)], ExitCode 1)).
  { unfold main. destruct (String.eqb_spec in_ EmptyString); [contradiction |].
    by rewrite H. }
  split; [exact Hmain |]. split; [| by apply main_steps_from in H].
  intros Hplain. rewrite Hmain. simpl.
  rewrite stderr_app by (by apply main_steps_stderr in H).
  simpl. rewrite fmt_Sprintf_plain by exact Hplain. simpl.
  by rewrite append_nil_r.
Qed.

(** An instance: the directory of the package [q]
    cannot be read. *)
Lemma main_error_surfaced_witness :
  main sch_az ex_env "q" "out" =
  ([Stderr_Fprintf "open /go/src/q: no such file or directory"], ExitCode 1).
Proof.
  destruct (main_error_surfaced sch_az ex_env "q" "out" []
              (mkError FromReadDir "open /go/src/q: no such file or directory"))
    as (H & _).
  - discriminate.
  - vm_compute. reflexivity.
  - exact H.
Defined.

(** C6, as it is stated, fails twice.  The directory of the package
    [a%b] cannot be read: the text of the error holds [%b], which
    [fmt.Fprintf] takes for a verb without an operand.  And in
    [ex_env_nocwd] the error of [filepath.Abs] reaches [main], which is
    no parse, template or write failure. *)
Lemma error_not_verbatim : ~ surfaced_verbatim /\ ~ surfaced_classes.
Proof.
  split.
  - intros H.
    destruct (H sch_az ex_env "a%b" "out" []
                (mkError FromReadDir "open /go/src/a%b: no such file or directory"))
      as [Hv _].
    + discriminate.
    + vm_compute. reflexivity.
    + vm_compute in Hv. discriminate.
  - intros H.
    destruct (H sch_az ex_env_nocwd "p" "out" []
                (mkError FromAbs "getwd: no such file or directory"))
      as [c Hc].
    + discriminate.
    + vm_compute. reflexivity.
    + discriminate.
Qed.

(** ** Which orders a run depends on *)

Lemma order_by_ext {V : Type} (f g : string -> string -> bool)
    (l : list (string * V)) :
  (forall a b, f a b = g a b) -> order_by f l = order_by g l.
Proof.
  intros H. unfold order_by. induction l as [|x l IH]; [reflexivity |].
  simpl. rewrite IH. generalize (foldr (insert_by g) [] l). intros k.
  induction k as [|y k IHk]; [reflexivity |].
  simpl. by rewrite H, IHk.
Qed.

Lemma range_ext {V : Type} (sch1 sch2 : Sched) (site : Loop) (m : gmap string V) :
  (forall a b, sch1 site a b = sch2 site a b) ->
  range sch1 site m = range sch2 site m.
Proof. intros H. by apply order_by_ext. Qed.

(** A loop over entries of distinct keys whose iterations commute does
    not depend on the order of the entries. *)
Lemma fold_left_Permutation {V S : Type} (f : S -> string * V -> S)
    (l l' : list (string * V)) (s : S) :
  (forall s x y, fst x <> fst y -> f (f s x) y = f (f s y) x) ->
  NoDup (map fst l) -> Permutation l l' ->
  fold_left f l s = fold_left f l' s.
Proof.
  intros Hcomm Hnd Hperm. revert s Hnd.
  induction Hperm as [|x l l' Hp IH|x y l|l l' l'' Hp1 IH1 Hp2 IH2];
    intros s Hnd.
  - reflexivity.
  - simpl. apply IH. by inversion Hnd.
  - simpl. apply (f_equal (fold_left f l)). apply Hcomm.
    inversion Hnd as [|? ? Hnotin _]; subst. intros E. apply Hnotin.
    rewrite E. simpl. by left.
  - rewrite IH1 by exact Hnd. apply IH2.
    by rewrite <- (Permutation_map fst Hp1).
Qed.

(** The same for a loop that may fail, when it succeeds. *)
Lemma loopM_Permutation {V S : Type} (f : S -> string * V -> Res S)
    (l l' : list (string * V)) (s r : S) :
  (forall s x y s1 s2, fst x <> fst y ->
     f s x = Ok s1 -> f s1 y = Ok s2 ->
     exists s1', f s y = Ok s1' /\ f s1' x = Ok s2) ->
  NoDup (map fst l) -> Permutation l l' ->
  loopM f l s = Ok r -> loopM f l' s = Ok r.
Proof.
  intros Hcomm Hnd Hperm. revert s r Hnd.
  induction Hperm as [|x l l' Hp IH|x y l|l l' l'' Hp1 IH1 Hp2 IH2];
    intros s r Hnd H.
  - exact H.
  - simpl in *. destruct (f s x) as [s1| |]; simpl in *; try discriminate.
    apply IH; [by inversion Hnd | exact H].
  - simpl in *.
    destruct (f s y) as [s1| |] eqn:E1; simpl in H; try discriminate.
    destruct (f s1 x) as [s2| |] eqn:E2; simpl in H; try discriminate.
    destruct (Hcomm s y x s1 s2) as (s1' & E1' & E2'); [| exact E1 | exact E2 |].
    { inversion Hnd as [|? ? Hnotin _]; subst. intros E. apply Hnotin.
      rewrite E. simpl. by left. }
    rewrite E1'. simpl. rewrite E2'. simpl. exact H.
  - apply IH2; [by rewrite <- (Permutation_map fst Hp1) |].
    by apply IH1.
Qed.

Lemma getStructs_methods_comm (sm : gmap string Struct)
    (x y : string * list Method) :
  fst x <> fst y ->
  getStructs_methods (getStructs_methods sm x) y =
  getStructs_methods (getStructs_methods sm y) x.
Proof.
  destruct x as [k ms], y as [k' ms']. simpl. intros Hne.
  by apply insert_insert_ne.
Qed.

Lemma getStructs_fields_comm (sm : gmap string Struct)
    (x y : string * list Field) :
  fst x <> fst y ->
  getStructs_fields (getStructs_fields sm x) y =
  getStructs_fields (getStructs_fields sm y) x.
Proof.
  destruct x as [k fs], y as [k' fs']. simpl. intros Hne.
  assert (Hne' : k' <> k) by (by apply not_eq_sym).
  destruct (sm !! k) as [st|] eqn:Ek; destruct (sm !! k') as [st'|] eqn:Ek'.
  - rewrite (lookup_insert_ne sm k k') by exact Hne.
    rewrite (lookup_insert_ne sm k' k) by exact Hne'.
    rewrite ?Ek, ?Ek'. by apply insert_insert_ne.
  - rewrite (lookup_insert_ne sm k k') by exact Hne. by rewrite ?Ek', ?Ek.
  - rewrite ?Ek'. rewrite (lookup_insert_ne sm k' k) by exact Hne'.
    by rewrite ?Ek.
  - by rewrite ?Ek', ?Ek.
Qed.

(** [getStructs] depends on the order of three loops only: the files in
    [getMethods], the files in [getFields], and the map of the structs. *)
Lemma getStructs_ext (sch1 sch2 : Sched) (env : Env) (pkg : AstPackage) :
  (forall a b, sch1 LoopMethodFiles a b = sch2 LoopMethodFiles a b) ->
  (forall a b, sch1 LoopFieldFiles a b = sch2 LoopFieldFiles a b) ->
  (forall a b, sch1 LoopStructMap a b = sch2 LoopStructMap a b) ->
  getStructs sch1 env pkg = getStructs sch2 env pkg.
Proof.
  intros Hm Hf Hs. unfold getStructs, getMethods, getFields.
  rewrite (range_ext sch1 sch2 LoopMethodFiles) by exact Hm.
  rewrite (range_ext sch1 sch2 LoopFieldFiles) by exact Hf.
  destruct (loopM _ (range sch2 LoopMethodFiles _) ∅) as [methods| |];
    [| reflexivity ..]. simpl.
  destruct (loopM _ (range sch2 LoopFieldFiles _) ∅) as [fields| |];
    [| reflexivity ..]. simpl.
  rewrite (fold_left_Permutation getStructs_methods
             (range sch1 LoopStructMethods methods)
             (range sch2 LoopStructMethods methods)).
  2:{ intros. by apply getStructs_methods_comm. }
  2:{ apply range_NoDup. }
  2:{ by rewrite !range_Permutation. }
  rewrite (fold_left_Permutation getStructs_fields
             (range sch1 LoopStructFields fields)
             (range sch2 LoopStructFields fields)).
  2:{ intros. by apply getStructs_fields_comm. }
  2:{ apply range_NoDup. }
  2:{ by rewrite !range_Permutation. }
  by rewrite (range_ext sch1 sch2 LoopStructMap) by exact Hs.
Qed.

Lemma length_append (a b : string) :
  String.length (a +:+ b) = (String.length a + String.length b)%nat.
Proof.
  induction a as [|c a IH]; [reflexivity |].
  rewrite append_cons. simpl. by rewrite IH.
Qed.

Lemma append_inj_r (a b c : string) : a +:+ c = b +:+ c -> a = b.
Proof.
  revert b. induction a as [|x a IH]; intros b H.
  - destruct b as [|y b]; [reflexivity |].
    apply (f_equal String.length) in H.
    rewrite append_nil_l, length_append in H. simpl in H. lia.
  - destruct b as [|y b].
    + apply (f_equal String.length) in H.
      rewrite append_nil_l, length_append in H. simpl in H. lia.
    + rewrite !append_cons in H. inversion H; subst. f_equal. by apply IH.
Qed.

Lemma getSubpackages_subpkg_Ok (sch : Sched) (env : Env) (pkg name : string)
    (p : AstPackage) (m m' : gmap string Package) :
  getSubpackages_subpkg sch env pkg m (name, p) = Ok m' <->
  exists structs,
    getStructs sch env p = Ok structs /\
    m' = <[name := mkPackage name structs [] pkg]> m.
Proof.
  unfold getSubpackages_subpkg.
  destruct (getStructs sch env p) as [structs| |]; simpl; split.
  - intros H. inversion H; subst. by exists structs.
  - intros (structs' & H & ->). by inversion H; subst.
  - discriminate.
  - intros (structs' & H & _). discriminate.
  - discriminate.
  - intros (structs' & H & _). discriminate.
Qed.

Lemma genCode_subpkg_texts (env : Env) (basePkg name : string) (pkg : Package)
    (maps : gmap string string * gmap string string) :
  genCode_subpkg env basePkg maps (name, pkg) =
  (genCode_texts env basePkg name pkg ≫= fun texts =>
   Ok (<[name +:+ "iface" := fst texts]> (fst maps),
       <[name := snd texts]> (snd maps))).
Proof.
  destruct maps as [ifaces impls]. unfold genCode_texts, genCode_subpkg.
  destruct (buildIfaces env pkg) as [ifs| |]; simpl; [| reflexivity ..].
  destruct (check FromTemplateParse (template_Parse env TmplIfacePkg));
    simpl; [| reflexivity ..].
  destruct (lift FromFormat (format_Source env (ifaceTmpl_Execute name ifs)));
    simpl; [| reflexivity ..].
  destruct (buildImpls env pkg) as [ims| |]; simpl; [| reflexivity ..].
  destruct (check FromTemplateParse (template_Parse env TmplImplPkg));
    simpl; [| reflexivity ..].
  destruct (lift FromFormat (format_Source env (implTmpl_Execute name ims _ _)));
    simpl; [| reflexivity ..].
  by rewrite !lookup_insert_eq.
Qed.

Lemma getSubpackages_order (sch1 sch2 : Sched) (env : Env) (pkg : string)
    (subpkgs : gmap string Package) :
  (forall a b, sch1 LoopMethodFiles a b = sch2 LoopMethodFiles a b) ->
  (forall a b, sch1 LoopFieldFiles a b = sch2 LoopFieldFiles a b) ->
  (forall a b, sch1 LoopStructMap a b = sch2 LoopStructMap a b) ->
  getSubpackages sch1 env pkg = Ok subpkgs ->
  getSubpackages sch2 env pkg = Ok subpkgs.
Proof.
  intros Hm Hf Hs. unfold getSubpackages.
  destruct (parsePkg env pkg) as [parsed| |]; simpl; try discriminate.
  intros H.
  rewrite (loopM_ext _ (getSubpackages_subpkg sch2 env pkg)) in H.
  2:{ intros m [name p] _. unfold getSubpackages_subpkg.
      by rewrite (getStructs_ext sch1 sch2). }
  revert H. apply loopM_Permutation.
  - intros m [k p] [k' p'] m1 m2 Hne H1 H2. simpl in Hne.
    apply getSubpackages_subpkg_Ok in H1 as (st1 & E1 & ->).
    apply getSubpackages_subpkg_Ok in H2 as (st2 & E2 & ->).
    exists (<[k' := mkPackage k' st2 [] pkg]> m). split.
    + apply getSubpackages_subpkg_Ok. by exists st2.
    + apply getSubpackages_subpkg_Ok. exists st1. split; [exact E1 |].
      by apply insert_insert_ne.
  - apply range_NoDup.
  - by rewrite !range_Permutation.
Qed.

Lemma genCode_order (sch1 sch2 : Sched) (env : Env) (pkgPath basePkg : string)
    (maps : gmap string string * gmap string string) :
  (forall a b, sch1 LoopMethodFiles a b = sch2 LoopMethodFiles a b) ->
  (forall a b, sch1 LoopFieldFiles a b = sch2 LoopFieldFiles a b) ->
  (forall a b, sch1 LoopStructMap a b = sch2 LoopStructMap a b) ->
  genCode sch1 env pkgPath basePkg = Ok maps ->
  genCode sch2 env pkgPath basePkg = Ok maps.
Proof.
  intros Hm Hf Hs. unfold genCode.
  destruct (getSubpackages sch1 env pkgPath) as [subpkgs| |] eqn:E;
    simpl; try discriminate.
  rewrite (getSubpackages_order sch1 sch2 env pkgPath subpkgs Hm Hf Hs E). simpl.
  apply loopM_Permutation.
  - intros m [k p] [k' p'] m1 m2 Hne H1 H2. simpl in Hne.
    rewrite genCode_subpkg_texts in H1. rewrite genCode_subpkg_texts in H2.
    destruct (genCode_texts env basePkg k p) as [[i1 w1]| |] eqn:T1;
      simpl in H1; try discriminate.
    destruct (genCode_texts env basePkg k' p') as [[i2 w2]| |] eqn:T2;
      simpl in H2; try discriminate.
    inversion H1; subst m1. inversion H2; subst m2. simpl.
    eexists. split; [rewrite genCode_subpkg_texts, T2; reflexivity |].
    rewrite genCode_subpkg_texts, T1. simpl. f_equal. f_equal.
    + apply insert_insert_ne. intros E'. apply Hne. by apply append_inj_r in E'.
    + by apply insert_insert_ne.
  - apply range_NoDup.
  - by rewrite !range_Permutation.
Qed.

(** C7, as the code has it.  Take a run of [genCode] that succeeds.
    Every other run on the same input that succeeds returns maps with the
    same keys.  And a run that visits the files of a package in
    [getMethods] and in [getFields] and the map of the structs in
    [getStructs] in the same orders succeeds with the same maps, whatever
    its orders in the other loops: the generated texts depend on the
    input and on these three orders only. *)
Theorem genCode_two_runs (sch1 sch2 : Sched) (env : Env) (pkgPath basePkg : string)
    (ifaces1 impls1 : gmap string string) :
  genCode sch1 env pkgPath basePkg = Ok (ifaces1, impls1) ->
  (forall ifaces2 impls2,
     genCode sch2 env pkgPath basePkg = Ok (ifaces2, impls2) ->
     dom ifaces1 = dom ifaces2 /\ dom impls1 = dom impls2) /\
  ((forall a b, sch1 LoopMethodFiles a b = sch2 LoopMethodFiles a b) ->
   (forall a b, sch1 LoopFieldFiles a b = sch2 LoopFieldFiles a b) ->
   (forall a b, sch1 LoopStructMap a b = sch2 LoopStructMap a b) ->
   genCode sch2 env pkgPath basePkg = Ok (ifaces1, impls1)).
Proof.
  intros H1. split.
  - intros ifaces2 impls2 H2.
    exact (genCode_keys sch1 sch2 env pkgPath basePkg _ _ _ _ H1 H2).
  - intros Hm Hf Hs.
    exact (genCode_order sch1 sch2 env pkgPath basePkg _ Hm Hf Hs H1).
Qed.

(** An instance: the package [p], visited upwards, and
    visited downwards in the loops that do not count. *)
Lemma genCode_two_runs_witness :
  exists ifaces impls,
    genCode sch_az ex_env "p" "base" = Ok (ifaces, impls) /\
    genCode sch_mixed ex_env "p" "base" = Ok (ifaces, impls).
Proof.
  destruct (genCode sch_az ex_env "p" "base") as [[ifaces impls]| |] eqn:E;
    [| vm_compute in E; discriminate ..].
  exists ifaces, impls. split; [reflexivity |].
  destruct (genCode_two_runs sch_az sch_mixed ex_env "p" "base" _ _ E) as [_ H].
  apply H; reflexivity.
Defined.

(** ** What the shapes hold *)

Lemma fold_left_invariant {A S : Type} (P : S -> Prop) (f : S -> A -> S)
    (l : list A) (s : S) :
  P s -> (forall s x, In x l -> P s -> P (f s x)) -> P (fold_left f l s).
Proof.
  revert s. induction l as [|x l IH]; intros s Hs Hstep; [exact Hs |].
  simpl. apply IH.
  - apply Hstep; [by left | exact Hs].
  - intros s' y Hy. apply Hstep. by right.
Qed.

(** [getMethods] records exported methods only. *)
Lemma getMethods_exported (sch : Sched) (env : Env) (pkg : AstPackage)
    (methodMap : gmap string (list Method)) :
  getMethods sch env pkg = Ok methodMap ->
  forall a ms, methodMap !! a = Some ms -> exported_methods ms.
Proof.
  unfold getMethods.
  apply (loopM_invariant
           (fun mm => forall a ms, mm !! a = Some ms -> exported_methods ms)).
  - intros a ms H. by rewrite lookup_empty in H.
  - intros mm [fileName astFile] mm' _ Hmm.
    apply (loopM_invariant
             (fun mm => forall a ms, mm !! a = Some ms -> exported_methods ms));
      [exact Hmm |].
    clear. intros mm decl mm' _ Hmm H. unfold getMethods_decl in H.
    destruct (ioutil_ReadFile env fileName) as [src|msg];
      [| by inversion H; subst].
    destruct (GetReceiverTypeName src decl) as [[a [fd|]]| |]; simpl in H;
      try discriminate; [| by inversion H; subst].
    destruct (ast_IsExported (fd_Name fd)) eqn:Ex; [| by inversion H; subst].
    destruct (getMethodFields src (fd_Params fd)) as [params| |]; simpl in H;
      try discriminate.
    destruct (match fd_Results fd with
              | Some l => getMethodFields src l
              | None => Ok []
              end) as [results| |]; simpl in H; try discriminate.
    inversion H; subst mm'. intros b ms Hb.
    destruct (decide (a = b)) as [<- | Hne].
    + rewrite lookup_insert_eq in Hb. inversion Hb; subst ms.
      intros m Hm. apply in_app_or in Hm as [Hm | [<- | []]]; [| exact Ex].
      destruct (mm !! a) as [old|] eqn:Eo; simpl in Hm; [| destruct Hm].
      by apply (Hmm a old Eo).
    + rewrite lookup_insert_ne in Hb by exact Hne. by apply (Hmm b ms).
Qed.

(** [getFields] records exported fields of structs with an exported name
    only. *)
Lemma records_exported (src : string) (l : list AstField) (new : list Field) :
  Forall2 (records src) l new ->
  (forall a, In a l -> ast_IsExported (first_name a) = true) ->
  exported_fields new.
Proof.
  intros H. induction H as [|a f l' new' [Hn _] _ IH]; intros Hl g Hg;
    [destruct Hg |].
  destruct Hg as [<- | Hg].
  - rewrite Hn. apply Hl. by left.
  - apply IH; [| exact Hg]. intros b Hb. apply Hl. by right.
Qed.

Lemma getFields_exported_names (src : string) (astFields : list AstField)
    (fields : list Field) :
  getFields_exported src astFields = Ok fields -> exported_fields fields.
Proof.
  intros H. apply getFields_exported_loop in H as (new & -> & H). simpl.
  apply (records_exported src _ _ H).
  intros a Ha. by apply filter_In in Ha as [_ Ha].
Qed.

Lemma getFields_exported_map (sch : Sched) (env : Env) (pkg : AstPackage)
    (fieldMap : gmap string (list Field)) :
  getFields sch env pkg = Ok fieldMap ->
  forall name fs, fieldMap !! name = Some fs ->
    ast_IsExported name = true /\ exported_fields fs.
Proof.
  unfold getFields.
  apply (loopM_invariant
           (fun fm => forall name fs, fm !! name = Some fs ->
                        ast_IsExported name = true /\ exported_fields fs)).
  - intros a fs H. by rewrite lookup_empty in H.
  - intros fm [fileName astFile] fm' _ Hfm H. unfold getFields_file in H.
    destruct (ioutil_ReadFile env fileName) as [src|msg];
      [| by inversion H; subst].
    destruct (check FromParseFile (parser_ParseFile_again env fileName)); simpl in H;
      try discriminate.
    revert H.
    apply (loopM_invariant
             (fun fm => forall name fs, fm !! name = Some fs ->
                          ast_IsExported name = true /\ exported_fields fs));
      [exact Hfm |].
    clear. intros fm st fm' _ Hfm H. unfold getFields_visit in H.
    destruct (getStructName src st) as [structName| |]; simpl in H;
      try discriminate.
    destruct (ast_IsExported structName) eqn:Ex; [| by inversion H; subst].
    destruct (getFields_exported src (st_Fields st)) as [fields| |] eqn:Ef;
      simpl in H; try discriminate.
    inversion H; subst fm'. intros name fs Hn.
    destruct (decide (structName = name)) as [<- | Hne].
    + rewrite lookup_insert_eq in Hn. inversion Hn; subst fs.
      split; [exact Ex |]. by apply getFields_exported_names in Ef.
    + rewrite lookup_insert_ne in Hn by exact Hne. by apply (Hfm name fs).
Qed.

(** X4.  The fields and the methods of every shape that [getStructs] returns
    are exported, and a shape that has fields has an exported name.  The
    name of a shape without fields is the receiver of a method, exported
    or not. *)
Lemma getStructs_members_exported (sch : Sched) (env : Env) (pkg : AstPackage)
    (structs : list Struct) :
  getStructs sch env pkg = Ok structs ->
  forall st, In st structs ->
    exported_methods (Struct_Methods st) /\
    exported_fields (Struct_Fields st) /\
    (Struct_Fields st <> [] -> ast_IsExported (Struct_Name st) = true).
Proof.
  unfold getStructs. intros H.
  destruct (getMethods sch env pkg) as [methods| |] eqn:Em; simpl in H;
    try discriminate.
  destruct (getFields sch env pkg) as [fields| |] eqn:Ef; simpl in H;
    try discriminate.
  inversion H; subst structs. clear H. intros st Hst.
  apply in_map_iff in Hst as ([k st'] & <- & Hst). simpl.
  apply elem_of_range in Hst. revert k st' Hst.
  set (Q := fun sm : gmap string Struct =>
              forall k st, sm !! k = Some st ->
                Struct_Name st = k /\
                exported_methods (Struct_Methods st) /\
                exported_fields (Struct_Fields st) /\
                (Struct_Fields st <> [] -> ast_IsExported k = true)).
  assert (HQ : Q (fold_left getStructs_fields (range sch LoopStructFields fields)
                    (fold_left getStructs_methods
                       (range sch LoopStructMethods methods) ∅))).
  { apply fold_left_invariant.
    - apply fold_left_invariant.
      + intros k st H. by rewrite lookup_empty in H.
      + intros sm [a ms] Ha Hsm k st Hk. simpl in Hk.
        apply elem_of_range in Ha.
        destruct (decide (a = k)) as [<- | Hne].
        * rewrite lookup_insert_eq in Hk. inversion Hk; subst st. simpl.
          split; [reflexivity |].
          split; [by apply (getMethods_exported _ _ _ _ Em a) |].
          split; [intros f [] | congruence].
        * rewrite lookup_insert_ne in Hk by exact Hne. by apply Hsm.
    - intros sm [name fs] Hn Hsm k st Hk. simpl in Hk.
      apply elem_of_range in Hn.
      destruct (getFields_exported_map _ _ _ _ Ef name fs Hn) as [Ex Hfs].
      destruct (sm !! name) as [old|] eqn:Eo; [| by apply Hsm].
      destruct (decide (name = k)) as [<- | Hne].
      + rewrite lookup_insert_eq in Hk. inversion Hk; subst st. simpl.
        destruct (Hsm name old Eo) as (Hname & Hms & _).
        by repeat split.
      + rewrite lookup_insert_ne in Hk by exact Hne. by apply Hsm. }
  intros k st Hk. destruct (HQ k st Hk) as (Hname & Hms & Hfs & Hex).
  rewrite Hname. by repeat split.
Qed.

(** ** The later names of a declaration, in the whole run *)

Lemma trim_Expr_fields (p en : Z) (fields : list AstField) :
  trim_Expr (StructType p en fields) = StructType p en (map trim_Field fields).
Proof.
  simpl. f_equal. apply map_ext. by intros [ns t].
Qed.

Lemma trim_Expr_Pos (e : Expr) :
  Expr_Pos (trim_Expr e) = Expr_Pos e /\ Expr_End (trim_Expr e) = Expr_End e.
Proof. by destruct e. Qed.

Lemma typeText_trim (src : string) (e : Expr) :
  typeText src (trim_Expr e) = typeText src e.
Proof.
  unfold typeText. by destruct (trim_Expr_Pos e) as [-> ->].
Qed.

Lemma flat_map_map {A B C : Type} (g : B -> list C) (h : A -> B) (l : list A) :
  flat_map g (map h l) = flat_map (fun x => g (h x)) l.
Proof. induction l as [|x l IH]; simpl; [reflexivity | by rewrite IH]. Qed.

Lemma map_flat_map {A B C : Type} (g : B -> C) (h : A -> list B) (l : list A) :
  map g (flat_map h l) = flat_map (fun x => map g (h x)) l.
Proof.
  induction l as [|x l IH]; simpl; [reflexivity |].
  by rewrite map_app, IH.
Qed.

Lemma flat_map_ext_Forall {A B : Type} (g h : A -> list B) (l : list A) :
  Forall (fun x => g x = h x) l -> flat_map g l = flat_map h l.
Proof.
  induction 1 as [|x l Hx _ IH]; simpl; [reflexivity | by rewrite Hx, IH].
Qed.

(** [ast.Inspect] meets the same struct types in the trimmed tree. *)
Lemma Inspect_Expr_trim (e : Expr) :
  Inspect_Expr (trim_Expr e) = map trim_Node (Inspect_Expr e).
Proof.
  induction e as [p en fields IH | p en children IH] using Expr_induction.
  - rewrite trim_Expr_fields. simpl. f_equal.
    rewrite flat_map_map, map_flat_map. apply flat_map_ext_Forall.
    eapply Forall_impl; [exact IH |]. intros [ns t] Ht. exact Ht.
  - simpl. rewrite flat_map_map, map_flat_map. by apply flat_map_ext_Forall.
Qed.

Lemma Inspect_FieldList_trim (l : list AstField) :
  Inspect_FieldList (map trim_Field l) = map trim_Node (Inspect_FieldList l).
Proof.
  unfold Inspect_FieldList. rewrite flat_map_map, map_flat_map.
  apply flat_map_ext_Forall, Forall_forall. intros f _.
  apply Inspect_Expr_trim.
Qed.

Lemma Inspect_Exprs_trim (l : list Expr) :
  flat_map Inspect_Expr (map trim_Expr l) = map trim_Node (flat_map Inspect_Expr l).
Proof.
  rewrite flat_map_map, map_flat_map.
  apply flat_map_ext_Forall, Forall_forall. intros e _. apply Inspect_Expr_trim.
Qed.

Lemma Inspect_File_trim (f : AstFile) :
  Inspect_File (trim_File f) = map trim_Node (Inspect_File f).
Proof.
  unfold Inspect_File. simpl. rewrite flat_map_map, map_flat_map.
  apply flat_map_ext_Forall, Forall_forall. intros d _.
  destruct d as [fd | specs]; simpl; [| apply Inspect_Exprs_trim].
  rewrite !map_app, <- !Inspect_FieldList_trim, <- Inspect_Exprs_trim.
  by destruct (fd_Recv fd), (fd_Results fd).
Qed.

Lemma getMethodFields_trim (src : string) (l : list AstField) :
  getMethodFields src (map trim_Field l) = getMethodFields src l.
Proof.
  unfold getMethodFields. rewrite loopM_map. apply loopM_ext.
  intros s [ns t] _. simpl. rewrite typeText_trim. by destruct ns.
Qed.

Lemma getFields_exported_trim (src : string) (l : list AstField) :
  getFields_exported src (map trim_Field l) = getFields_exported src l.
Proof.
  unfold getFields_exported. rewrite loopM_map. apply loopM_ext.
  intros s [ns t] _. simpl. rewrite typeText_trim. by destruct ns.
Qed.

Lemma getFields_visit_trim (src : string) (fm : gmap string (list Field))
    (st : StructTypeNode) :
  getFields_visit src fm (trim_Node st) = getFields_visit src fm st.
Proof.
  unfold getFields_visit. simpl. by rewrite getFields_exported_trim.
Qed.

Lemma getMethods_decl_trim (env : Env) (fileName : string)
    (mm : gmap string (list Method)) (d : Decl) :
  getMethods_decl (trim_env env) fileName mm (trim_Decl d) =
  getMethods_decl env fileName mm d.
Proof.
  unfold getMethods_decl. simpl.
  destruct (ioutil_ReadFile env fileName) as [src|msg]; [| reflexivity].
  destruct d as [fd | specs]; [| reflexivity]. simpl.
  destruct (fd_Recv fd) as [recv|]; [| reflexivity]. simpl.
  destruct recv as [|[ns t] recv]; [reflexivity |]. simpl.
  destruct (trim_Expr_Pos t) as [-> ->].
  destruct (slice src (Expr_Pos t - 1) (Expr_End t - 1)) as [st| |];
    [| reflexivity ..]. simpl.
  assert (E : forall a : string,
            (if ast_IsExported (fd_Name fd)
             then params ← getMethodFields src (map trim_Field (fd_Params fd));
                  results ← match option_map (map trim_Field) (fd_Results fd) with
                            | Some l => getMethodFields src l
                            | None => Ok []
                            end;
                  Ok (<[a := default [] (mm !! a) ++
                             [mkMethod (fd_Name fd) params results]]> mm)
             else Ok mm) =
            (if ast_IsExported (fd_Name fd)
             then params ← getMethodFields src (fd_Params fd);
                  results ← match fd_Results fd with
                            | Some l => getMethodFields src l
                            | None => Ok []
                            end;
                  Ok (<[a := default [] (mm !! a) ++
                             [mkMethod (fd_Name fd) params results]]> mm)
             else Ok mm)).
  { intros a. rewrite getMethodFields_trim.
    destruct (fd_Results fd); simpl; [by rewrite getMethodFields_trim | reflexivity]. }
  destruct st as [|c st]; [apply E |].
  destruct c as [[] [] [] [] [] [] [] []]; apply E.
Qed.

Lemma getFields_file_trim (env : Env) (fm : gmap string (list Field))
    (fileName : string) (f : AstFile) :
  getFields_file (trim_env env) fm (fileName, trim_File f) =
  getFields_file env fm (fileName, f).
Proof.
  unfold getFields_file. simpl.
  destruct (ioutil_ReadFile env fileName) as [src|msg]; [| reflexivity].
  destruct (parser_ParseFile_again env fileName) as [msg|]; simpl; [reflexivity |].
  rewrite Inspect_File_trim, loopM_map. apply loopM_ext.
  intros s st _. apply getFields_visit_trim.
Qed.

Lemma order_by_cons {V : Type} (before : string -> string -> bool)
    (x : string * V) (l : list (string * V)) :
  order_by before (x :: l) = insert_by before x (order_by before l).
Proof. reflexivity. Qed.

Lemma insert_by_fmap {V W : Type} (before : string -> string -> bool) (g : V -> W)
    (x : string * V) (k : list (string * V)) :
  insert_by before (prod_map id g x) (prod_map id g <$> k) =
  prod_map id g <$> insert_by before x k.
Proof.
  induction k as [|y k IH]; [reflexivity |].
  rewrite fmap_cons. destruct x as [a v], y as [b w]. simpl.
  destruct (before a b); [reflexivity |].
  rewrite fmap_cons. f_equal. exact IH.
Qed.

Lemma order_by_fmap {V W : Type} (before : string -> string -> bool) (g : V -> W)
    (l : list (string * V)) :
  order_by before (prod_map id g <$> l) = prod_map id g <$> order_by before l.
Proof.
  induction l as [|x l IH]; [reflexivity |].
  rewrite fmap_cons, !order_by_cons, IH. apply insert_by_fmap.
Qed.

Lemma range_fmap {V W : Type} (sch : Sched) (site : Loop) (g : V -> W)
    (m : gmap string V) :
  range sch site (g <$> m) = map (prod_map id g) (range sch site m).
Proof. unfold range. rewrite map_to_list_fmap. apply order_by_fmap. Qed.

Lemma getStructs_trim (sch : Sched) (env : Env) (p : AstPackage) :
  getStructs sch (trim_env env) (trim_Package p) = getStructs sch env p.
Proof.
  unfold getStructs.
  assert (Hm : getMethods sch (trim_env env) (trim_Package p) =
               getMethods sch env p).
  { unfold getMethods. simpl. rewrite range_fmap, loopM_map.
    apply loopM_ext. intros mm [fileName f] _. simpl.
    rewrite loopM_map. apply loopM_ext. intros mm' d _.
    apply getMethods_decl_trim. }
  assert (Hf : getFields sch (trim_env env) (trim_Package p) =
               getFields sch env p).
  { unfold getFields. simpl. rewrite range_fmap, loopM_map.
    apply loopM_ext. intros fm [fileName f] _. apply getFields_file_trim. }
  by rewrite Hm, Hf.
Qed.

Lemma ParseDir_add_trim (pkgs : gmap string AstPackage) (filename : string)
    (src : AstFile) :
  ParseDir_add (trim_Package <$> pkgs) filename (trim_File src) =
  trim_Package <$> ParseDir_add pkgs filename src.
Proof.
  unfold ParseDir_add.
  change (File_Name (trim_File src)) with (File_Name src).
  rewrite lookup_fmap.
  destruct (pkgs !! File_Name src) as [pkg|]; cbn [fmap option_fmap option_map];
    rewrite fmap_insert; f_equal; unfold trim_Package; cbn [AstPackage_Files
      AstPackage_Name]; f_equal.
  - by rewrite fmap_insert.
  - by rewrite map_fmap_singleton.
Qed.

Lemma parsePkg_trim (env : Env) (pkg : string) :
  parsePkg (trim_env env) pkg =
  match parsePkg env pkg with
  | Ok parsed => Ok (trim_Package <$> parsed)
  | Err e => Err e
  | Panic => Panic
  end.
Proof.
  unfold parsePkg, parser_ParseDir. simpl.
  destruct (os_ReadDir env _) as [list|msg]; simpl; [| reflexivity].
  set (dir := path_Join env [GOPATH env; "src"; pkg]).
  assert (H : forall pkgs first,
    fold_left (fun '(pkgs, first) d =>
      if strings_HasSuffix d ".go" && parsePkg_filter d then
        match
          match parser_ParseFile env (path_Join env [dir; d]) with
          | inl file => inl (trim_File file)
          | inr msg => inr msg
          end
        with
        | inl src => (ParseDir_add pkgs (path_Join env [dir; d]) src, first)
        | inr msg => (pkgs, match first with None => Some msg | Some _ => first end)
        end
      else (pkgs, first)) list (trim_Package <$> pkgs, first) =
    (let '(pkgs', first') :=
       fold_left (fun '(pkgs, first) d =>
         if strings_HasSuffix d ".go" && parsePkg_filter d then
           match parser_ParseFile env (path_Join env [dir; d]) with
           | inl src => (ParseDir_add pkgs (path_Join env [dir; d]) src, first)
           | inr msg => (pkgs, match first with None => Some msg | Some _ => first end)
           end
         else (pkgs, first)) list (pkgs, first) in
     (trim_Package <$> pkgs', first'))).
  { induction list as [|d l IH]; intros pkgs first; [reflexivity |].
    simpl. destruct (strings_HasSuffix d ".go" && parsePkg_filter d);
      [| apply IH].
    destruct (parser_ParseFile env (path_Join env [dir; d])) as [file|msg];
      [| apply IH].
    rewrite ParseDir_add_trim. apply IH. }
  specialize (H ∅ None). rewrite fmap_empty in H. rewrite H. clear H.
  destruct (fold_left _ list (∅, None)) as [pkgs' [msg|]]; reflexivity.
Qed.

Lemma getSubpackages_trim (sch : Sched) (env : Env) (pkg : string) :
  getSubpackages sch (trim_env env) pkg = getSubpackages sch env pkg.
Proof.
  unfold getSubpackages. rewrite parsePkg_trim.
  destruct (parsePkg env pkg) as [parsed| |]; [| reflexivity ..]. simpl.
  rewrite range_fmap, loopM_map. apply loopM_ext.
  intros m [name p] _. unfold getSubpackages_subpkg. simpl.
  by rewrite getStructs_trim.
Qed.

(** The generated packages do not depend on the names after the first of
    any declaration of the parsed files. *)
Lemma genCode_trim (sch : Sched) (env : Env) (pkgPath basePkg : string) :
  genCode sch (trim_env env) pkgPath basePkg = genCode sch env pkgPath basePkg.
Proof. unfold genCode. by rewrite getSubpackages_trim. Qed.

(** C10.  A declaration that lists several names for one type yields one
    field of the shape, under the first name: the parameters and results
    of a method are, one for one, the first names and type texts of their
    declarations, the fields of a struct those of the declarations whose
    first name is exported.  The names after the first play no part: the
    extraction from the declarations cut down to their first name is the
    same, and so are the packages that [genCode] generates when every
    declaration of every parsed file is cut down to its first name. *)
Theorem first_name_only_recorded (src : string) (astFields : list AstField) :
  (forall fields, getMethodFields src astFields = Ok fields ->
     Forall2 (records src) astFields fields) /\
  (forall fields, getFields_exported src astFields = Ok fields ->
     Forall2 (records src)
       (List.filter (fun a => ast_IsExported (first_name a)) astFields) fields) /\
  getMethodFields src (map first_name_only astFields) =
    getMethodFields src astFields /\
  getFields_exported src (map first_name_only astFields) =
    getFields_exported src astFields /\
  (forall sch env pkgPath basePkg,
     genCode sch (trim_env env) pkgPath basePkg = genCode sch env pkgPath basePkg).
Proof.
  destruct (first_name_only_fields src astFields) as (H1 & H2 & H3 & H4).
  repeat split; try assumption.
  intros. apply genCode_trim.
Qed.

(** An instance: the fields [A, B int],
    [c string] and [Next *S] of the struct [S]. *)
Lemma first_name_only_recorded_witness :
  Forall2 (records ex_src)
    (List.filter (fun a => ast_IsExported (first_name a)) (st_Fields ex_struct_S))
    [mkField "A" "int"; mkField "Next" "*S"].
Proof.
  destruct (first_name_only_recorded ex_src (st_Fields ex_struct_S))
    as (_ & H & _).
  apply H. vm_compute. reflexivity.
Defined.

(** ** The line of a position *)

Lemma strings_Split_length (s : string) :
  Z.of_nat (length (strings_Split s "010")) = 1 + count_LF (String.length s) s.
Proof.
  induction s as [|c s IH]; [reflexivity |].
  simpl strings_Split. simpl count_LF.
  destruct (Ascii.eqb c "010").
  - simpl length. lia.
  - destruct (strings_Split s "010") as [|w ws] eqn:E.
    + by destruct (strings_Split_nonempty s "010").
    + simpl length in *. lia.
Qed.

Lemma count_LF_bound (n : nat) (s : string) :
  0 <= count_LF n s <= count_LF (String.length s) s.
Proof.
  revert n. induction s as [|c s IH]; intros [|n]; simpl; try lia.
  - specialize (IH 0%nat). destruct (Ascii.eqb c "010"); lia.
  - specialize (IH n). destruct (Ascii.eqb c "010"); lia.
Qed.

(** A position of the file lies on a line of its source. *)
Lemma line_of_position (src : string) (p : Z) :
  1 <= p <= 1 + len src ->
  exists line,
    at_index (strings_Split src "010") (Position_Line src p - 1) = Ok line.
Proof.
  intros Hp. unfold Position_Line.
  assert ((1 <=? p) && (p <=? 1 + len src) = true) as ->.
  { apply andb_true_intro. split; apply Z.leb_le; lia. }
  pose proof (count_LF_bound (Z.to_nat (p - 1)) src) as Hb.
  pose proof (strings_Split_length src) as Hl.
  destruct (at_index_lookup (strings_Split src "010")
              (Z.to_nat (count_LF (Z.to_nat (p - 1)) src))) as (line & H & _).
  - lia.
  - exists line. rewrite <- H. f_equal. lia.
Qed.

(** ** More of what the code does *)

Lemma getStructs_methods_fold (l : list (string * list Method))
    (sm : gmap string Struct) (k : string) :
  NoDup (map fst l) ->
  (forall ms, In (k, ms) l ->
     fold_left getStructs_methods l sm !! k = Some (mkStruct k ms [] None)) /\
  ((forall ms, ~ In (k, ms) l) ->
     fold_left getStructs_methods l sm !! k = sm !! k).
Proof.
  revert sm. induction l as [|[k' ms'] l IH]; intros sm Hnd.
  - split; [intros ms [] | reflexivity].
  - apply NoDup_cons in Hnd as [Hk' Hnd]. simpl in Hk'.
    destruct (IH (<[k' := mkStruct k' ms' [] None]> sm) Hnd) as [IH1 IH2].
    split.
    + intros ms [Heq | Hin].
      * injection Heq as -> ->. simpl. rewrite IH2.
        -- apply lookup_insert_eq.
        -- intros ms0 Hin. apply Hk'. apply list_elem_of_In.
           apply (in_map fst) in Hin. exact Hin.
      * simpl. by apply IH1.
    + intros Hno. simpl. rewrite IH2.
      * apply lookup_insert_ne. intros ->. apply (Hno ms'). by left.
      * intros ms0 Hin. apply (Hno ms0). by right.
Qed.

Lemma getStructs_fields_fold (l : list (string * list Field))
    (sm : gmap string Struct) (k : string) :
  NoDup (map fst l) ->
  (forall fs, In (k, fs) l ->
     fold_left getStructs_fields l sm !! k =
     (fun st => mkStruct (Struct_Name st) (Struct_Methods st) fs (Struct_Parent st))
       <$> sm !! k) /\
  ((forall fs, ~ In (k, fs) l) ->
     fold_left getStructs_fields l sm !! k = sm !! k).
Proof.
  revert sm. induction l as [|[k' fs'] l IH]; intros sm Hnd.
  - split; [intros fs [] | reflexivity].
  - apply NoDup_cons in Hnd as [Hk' Hnd]. simpl in Hk'.
    destruct (IH (getStructs_fields sm (k', fs')) Hnd) as [IH1 IH2].
    assert (Hne : forall fs, In (k, fs) l -> k <> k').
    { intros fs Hin ->. apply Hk'. apply list_elem_of_In.
      apply (in_map fst) in Hin. exact Hin. }
    assert (Hstep : k <> k' -> getStructs_fields sm (k', fs') !! k = sm !! k).
    { intros Hkk. unfold getStructs_fields. destruct (sm !! k'); [|reflexivity].
      by apply lookup_insert_ne. }
    split.
    + intros fs [Heq | Hin].
      * injection Heq as -> ->. cbn [fold_left]. rewrite IH2.
        -- unfold getStructs_fields. destruct (sm !! k) as [st|] eqn:E.
           ++ by rewrite lookup_insert_eq.
           ++ by rewrite E.
        -- intros fs0 Hin. by apply (Hne fs0).
      * cbn [fold_left]. rewrite (IH1 fs Hin), Hstep; [reflexivity | by apply (Hne fs)].
    + intros Hno. cbn [fold_left]. rewrite IH2.
      * apply Hstep. intros ->. apply (Hno fs'). by left.
      * intros fs0 Hin. apply (Hno fs0). by right.
Qed.

Lemma getStructs_structMap (sch : Sched) (methods : gmap string (list Method))
    (fields : gmap string (list Field)) (k : string) :
  fold_left getStructs_fields (range sch LoopStructFields fields)
    (fold_left getStructs_methods (range sch LoopStructMethods methods) ∅) !! k =
  (fun ms => mkStruct k ms (default [] (fields !! k)) None) <$> methods !! k.
Proof.
  set (sm := fold_left getStructs_methods _ _).
  assert (Hsm : sm !! k = (fun ms => mkStruct k ms [] None) <$> methods !! k).
  { unfold sm.
    destruct (getStructs_methods_fold (range sch LoopStructMethods methods) ∅ k
                (range_NoDup _ _ _)) as [H1 H2].
    destruct (methods !! k) as [ms|] eqn:E.
    - apply H1. by apply elem_of_range.
    - rewrite H2; [apply lookup_empty |].
      intros ms Hin. apply elem_of_range in Hin. congruence. }
  destruct (getStructs_fields_fold (range sch LoopStructFields fields) sm k
              (range_NoDup _ _ _)) as [H1 H2].
  destruct (fields !! k) as [fs|] eqn:E.
  - rewrite (H1 fs); [| by apply elem_of_range].
    rewrite Hsm. by destruct (methods !! k).
  - rewrite H2.
    + rewrite Hsm. by destruct (methods !! k).
    + intros fs Hin. apply elem_of_range in Hin. congruence.
Qed.

(** What [getStructs] returns, from the maps of [getMethods] and
    [getFields]. *)
Lemma getStructs_Ok (sch : Sched) (env : Env) (pkg : AstPackage)
    (structs : list Struct) :
  getStructs sch env pkg = Ok structs ->
  exists methods fields structMap,
    getMethods sch env pkg = Ok methods /\
    getFields sch env pkg = Ok fields /\
    (forall k, structMap !! k =
       (fun ms => mkStruct k ms (default [] (fields !! k)) None) <$> methods !! k) /\
    structs = map snd (range sch LoopStructMap structMap).
Proof.
  unfold getStructs. intros H.
  destruct (getMethods sch env pkg) as [methods| |]; try discriminate.
  destruct (getFields sch env pkg) as [fields| |]; try discriminate.
  injection H as <-.
  eexists methods, fields, _. split; [reflexivity |]. split; [reflexivity |].
  split; [| reflexivity]. intros k. apply getStructs_structMap.
Qed.

Lemma getStructs_In (sch : Sched) (env : Env) (pkg : AstPackage)
    (methods : gmap string (list Method)) (fields : gmap string (list Field))
    (structs : list Struct) :
  getMethods sch env pkg = Ok methods ->
  getFields sch env pkg = Ok fields ->
  getStructs sch env pkg = Ok structs ->
  forall st, In st structs <->
    exists ms, methods !! Struct_Name st = Some ms /\
      st = mkStruct (Struct_Name st) ms (default [] (fields !! Struct_Name st)) None.
Proof.
  intros Hm Hf H st.
  apply getStructs_Ok in H as (methods' & fields' & sm & Hm' & Hf' & Hsm & ->).
  rewrite Hm in Hm'. rewrite Hf in Hf'. injection Hm' as <-. injection Hf' as <-.
  rewrite in_map_iff. split.
  - intros ([k st'] & <- & Hin). apply elem_of_range in Hin. simpl.
    rewrite Hsm in Hin. destruct (methods !! k) as [ms|] eqn:E; [|discriminate].
    injection Hin as <-. simpl. by exists ms.
  - intros (ms & Hms & Hst). exists (Struct_Name st, st). split; [reflexivity |].
    apply elem_of_range. rewrite Hsm, Hms. simpl. by rewrite <- Hst.
Qed.

Lemma getStructs_names (sch : Sched) (env : Env) (pkg : AstPackage)
    (structs : list Struct) :
  getStructs sch env pkg = Ok structs -> NoDup (map Struct_Name structs).
Proof.
  intros H.
  apply getStructs_Ok in H as (methods & fields & sm & _ & _ & Hsm & ->).
  rewrite map_map.
  replace (map (fun x => Struct_Name (snd x)) (range sch LoopStructMap sm))
    with (map fst (range sch LoopStructMap sm)); [apply range_NoDup |].
  apply map_ext_in. intros [k st] Hin. apply elem_of_range in Hin. simpl.
  rewrite Hsm in Hin. destruct (methods !! k); [|discriminate].
  by injection Hin as <-.
Qed.

(** X1.  The shapes that [getStructs] returns bear the names of the
    receivers that [getMethods] has recorded, each name once: a struct
    that has fields and no recorded method gets no shape. *)
Theorem getStructs_receivers (sch : Sched) (env : Env) (pkg : AstPackage)
    (methods : gmap string (list Method)) (structs : list Struct) :
  getMethods sch env pkg = Ok methods ->
  getStructs sch env pkg = Ok structs ->
  NoDup (map Struct_Name structs) /\
  (forall name, In name (map Struct_Name structs) <-> is_Some (methods !! name)) /\
  (forall fields name,
     getFields sch env pkg = Ok fields ->
     is_Some (fields !! name) -> methods !! name = None ->
     ~ In name (map Struct_Name structs)).
Proof.
  intros Hm H.
  assert (Hnames : forall name,
            In name (map Struct_Name structs) <-> is_Some (methods !! name)).
  { destruct (getStructs_Ok _ _ _ _ H) as (methods' & fields & sm & Hm' & Hf & _ & _).
    rewrite Hm in Hm'. injection Hm' as <-.
    intros name. rewrite in_map_iff. split.
    - intros (st & <- & Hin).
      apply (getStructs_In _ _ _ _ _ _ Hm Hf H) in Hin as (ms & Hms & _).
      by exists ms.
    - intros [ms Hms].
      exists (mkStruct name ms (default [] (fields !! name)) None).
      split; [reflexivity |].
      apply (getStructs_In _ _ _ _ _ _ Hm Hf H). by exists ms. }
  split; [by apply getStructs_names in H |]. split; [exact Hnames |].
  intros fields name _ _ Hnone Hin. apply Hnames in Hin as [ms Hms]. congruence.
Qed.

(** X2.  Each shape holds the methods recorded for its name, the fields
    recorded for its name, none when there is no such record, and no
    parent. *)
Theorem getStructs_shapes (sch : Sched) (env : Env) (pkg : AstPackage)
    (methods : gmap string (list Method)) (fields : gmap string (list Field))
    (structs : list Struct) :
  getMethods sch env pkg = Ok methods ->
  getFields sch env pkg = Ok fields ->
  getStructs sch env pkg = Ok structs ->
  forall st, In st structs <->
    exists ms, methods !! Struct_Name st = Some ms /\
      st = mkStruct (Struct_Name st) ms (default [] (fields !! Struct_Name st)) None.
Proof. apply getStructs_In. Qed.

(** X3.  Two runs that visit the files of the package in the same order
    return the same shapes, up to the order of the list. *)
Theorem getStructs_up_to_order (sch1 sch2 : Sched) (env : Env) (pkg : AstPackage)
    (structs1 : list Struct) :
  (forall a b, sch1 LoopMethodFiles a b = sch2 LoopMethodFiles a b) ->
  (forall a b, sch1 LoopFieldFiles a b = sch2 LoopFieldFiles a b) ->
  getStructs sch1 env pkg = Ok structs1 ->
  exists structs2,
    getStructs sch2 env pkg = Ok structs2 /\ Permutation structs1 structs2.
Proof.
  intros HM HF H.
  apply getStructs_Ok in H as (methods & fields & sm & Hm & Hf & Hsm & ->).
  assert (Hm2 : getMethods sch2 env pkg = Ok methods).
  { rewrite <- Hm. unfold getMethods. by rewrite (range_ext sch1 sch2). }
  assert (Hf2 : getFields sch2 env pkg = Ok fields).
  { rewrite <- Hf. unfold getFields. by rewrite (range_ext sch1 sch2). }
  destruct (getStructs sch2 env pkg) as [structs2| |] eqn:H2.
  - exists structs2. split; [reflexivity |].
    apply getStructs_Ok in H2 as (methods' & fields' & sm' & Hm' & Hf' & Hsm' & ->).
    rewrite Hm2 in Hm'. rewrite Hf2 in Hf'. injection Hm' as <-. injection Hf' as <-.
    assert (sm' = sm) as -> by (apply map_eq; intros k; by rewrite Hsm, Hsm').
    apply Permutation_map.
    rewrite (range_Permutation sch1), (range_Permutation sch2). reflexivity.
  - exfalso. unfold getStructs in H2. rewrite Hm2, Hf2 in H2. discriminate.
  - exfalso. unfold getStructs in H2. rewrite Hm2, Hf2 in H2. discriminate.
Qed.

(** An instance: the package [p]. *)
Lemma getStructs_receivers_witness :
  exists structs,
    getStructs sch_az ex_env ex_pkg = Ok structs /\
    NoDup (map Struct_Name structs) /\ In "foo" (map Struct_Name structs).
Proof.
  destruct (getMethods sch_az ex_env ex_pkg) as [methods| |] eqn:Hm;
    [| vm_compute in Hm; discriminate ..].
  destruct (getStructs sch_az ex_env ex_pkg) as [structs| |] eqn:H;
    [| vm_compute in H; discriminate ..].
  destruct (getStructs_receivers _ _ _ _ _ Hm H) as (Hnd & Hnames & _).
  exists structs. split; [reflexivity |]. split; [exact Hnd |].
  apply Hnames. vm_compute in Hm. injection Hm as <-. vm_compute. eauto.
Defined.

(** An instance: the struct [S] of the package [p]. *)
Lemma getStructs_shapes_witness :
  exists structs,
    getStructs sch_az ex_env ex_pkg = Ok structs /\
    In (mkStruct "S"
          [mkMethod "Get" [mkField "o" "S"; mkField "l" "[]S"]
                          [mkField EmptyString "*S"]]
          [mkField "A" "int"; mkField "Next" "*S"] None) structs.
Proof.
  destruct (getMethods sch_az ex_env ex_pkg) as [methods| |] eqn:Hm;
    [| vm_compute in Hm; discriminate ..].
  destruct (getFields sch_az ex_env ex_pkg) as [fields| |] eqn:Hf;
    [| vm_compute in Hf; discriminate ..].
  destruct (getStructs sch_az ex_env ex_pkg) as [structs| |] eqn:H;
    [| vm_compute in H; discriminate ..].
  exists structs. split; [reflexivity |].
  apply (getStructs_shapes _ _ _ _ _ _ Hm Hf H).
  vm_compute in Hm. injection Hm as <-. vm_compute in Hf. injection Hf as <-.
  eexists. split; vm_compute; reflexivity.
Defined.

(** An instance: the package [p], its structs visited upwards and
    downwards. *)
Lemma getStructs_up_to_order_witness :
  exists structs1 structs2,
    getStructs sch_az ex_env ex_pkg = Ok structs1 /\
    getStructs sch_structs_za ex_env ex_pkg = Ok structs2 /\
    Permutation structs1 structs2.
Proof.
  destruct (getStructs sch_az ex_env ex_pkg) as [structs1| |] eqn:H;
    [| vm_compute in H; discriminate ..].
  destruct (getStructs_up_to_order sch_az sch_structs_za _ _ _
              (fun _ _ => eq_refl) (fun _ _ => eq_refl) H) as (structs2 & H2 & HP).
  exists structs1, structs2. split; [reflexivity |]. split; [exact H2 | exact HP].
Defined.

(** A loop whose body adds to what the state holds: the result holds what
    the state held at the start and what the elements have added. *)
Lemma loopM_union {A S X : Type} (R : S -> X -> Prop) (D : A -> X -> Prop)
    (f : S -> A -> Res S) (l : list A) (s s' : S) :
  (forall s x s', In x l -> f s x = Ok s' ->
     forall y, R s' y <-> R s y \/ D x y) ->
  loopM f l s = Ok s' ->
  forall y, R s' y <-> R s y \/ exists x, In x l /\ D x y.
Proof.
  revert s. induction l as [|x l IH]; intros s Hf H y.
  - injection H as <-. split; [by left | intros [H | (x & [] & _)]; exact H].
  - simpl in H. destruct (f s x) as [s1| |] eqn:E; try discriminate.
    change (loopM f l s1 = Ok s') in H.
    rewrite (IH s1); [| | exact H].
    + rewrite (Hf s x s1 (or_introl eq_refl) E y). split.
      * intros [[H1 | H1] | (z & Hz & H1)].
        -- by left.
        -- right. exists x. split; [by left | exact H1].
        -- right. exists z. split; [by right | exact H1].
      * intros [H1 | (z & [<- | Hz] & H1)].
        -- left. by left.
        -- left. by right.
        -- right. by exists z.
    + intros s0 z s0' Hz. apply Hf. by right.
Qed.

Lemma getMethods_decl_recorded (env : Env) (fileName : string)
    (mm mm' : gmap string (list Method)) (decl : Decl) :
  getMethods_decl env fileName mm decl = Ok mm' ->
  forall am, recorded mm' am <->
    recorded mm am \/
    exists src, ioutil_ReadFile env fileName = inl src /\
                declares src decl (fst am) (snd am).
Proof.
  unfold getMethods_decl. intros H [a m].
  destruct (ioutil_ReadFile env fileName) as [src | msg] eqn:Er.
  2:{ injection H as <-. split; [by left | intros [H | (src & Hs & _)]];
      [exact H | discriminate]. }
  destruct (GetReceiverTypeName src decl) as [[a0 fd0]| |] eqn:Eg; try discriminate.
  change (match fd0 with
          | Some fd =>
              if ast_IsExported (fd_Name fd) then
                params ← getMethodFields src (fd_Params fd);
                results ← match fd_Results fd with
                          | Some l => getMethodFields src l
                          | None => Ok []
                          end;
                Ok (<[a0 := default [] (mm !! a0) ++
                             [mkMethod (fd_Name fd) params results]]> mm)
              else Ok mm
          | None => Ok mm
          end = Ok mm') in H.
  cbn [fst snd].
  match goal with
  | |- _ <-> ?M \/ ?R =>
      assert (Hskip : mm' = mm -> ~ R -> recorded mm' (a, m) <-> M \/ R)
  end.
  { intros -> Hno. split; [by left | intros [H1 | H1]]; [exact H1 | destruct (Hno H1)]. }
  destruct fd0 as [fd|].
  2:{ injection H as <-. apply Hskip; [reflexivity |].
      intros (src' & Hs & fd & ps & rs & Hg & _). rewrite ?Er in Hs.
      injection Hs as <-. rewrite Eg in Hg. discriminate. }
  destruct (ast_IsExported (fd_Name fd)) eqn:Ex.
  2:{ injection H as <-. apply Hskip; [reflexivity |].
      intros (src' & Hs & fd' & ps & rs & Hg & Hx & _). rewrite ?Er in Hs.
      injection Hs as <-. rewrite Eg in Hg. injection Hg as _ <-. congruence. }
  destruct (getMethodFields src (fd_Params fd)) as [params| |] eqn:Ep;
    try discriminate.
  change ((results ← match fd_Results fd with
                     | Some l => getMethodFields src l
                     | None => Ok []
                     end;
           Ok (<[a0 := default [] (mm !! a0) ++
                        [mkMethod (fd_Name fd) params results]]> mm)) = Ok mm') in H.
  destruct (match fd_Results fd with
            | Some l => getMethodFields src l
            | None => Ok []
            end) as [results| |] eqn:Ers; try discriminate.
  injection H as <-. clear Hskip. unfold recorded. cbn [fst snd]. split.
  - intros (ms & Hms & Hin).
    destruct (decide (a0 = a)) as [-> | Hne].
    + rewrite lookup_insert_eq in Hms. injection Hms as <-.
      apply in_app_iff in Hin as [Hin | [<- | []]].
      * left. destruct (mm !! a) as [old|]; [by exists old | destruct Hin].
      * right. exists src. split; [by rewrite ?Er |].
        by exists fd, params, results.
    + rewrite lookup_insert_ne in Hms by exact Hne. left. by exists ms.
  - intros [(ms & Hms & Hin) | (src' & Hs & fd' & ps & rs & Hg & Hx & Hp & Hr & ->)].
    + destruct (decide (a0 = a)) as [-> | Hne].
      * rewrite lookup_insert_eq. eexists. split; [reflexivity |].
        apply in_app_iff. left. by rewrite Hms.
      * rewrite lookup_insert_ne by exact Hne. by exists ms.
    + rewrite ?Er in Hs. injection Hs as <-. rewrite Eg in Hg. injection Hg as -> <-.
      rewrite Ep in Hp. injection Hp as <-. rewrite Ers in Hr. injection Hr as <-.
      rewrite lookup_insert_eq. eexists. split; [reflexivity |].
      apply in_app_iff. right. by left.
Qed.

(** X5.  [getMethods] records the exported methods that the readable
    files of the package declare with a receiver, each under the name of
    its receiver type, and nothing else. *)
Theorem getMethods_records (sch : Sched) (env : Env) (pkg : AstPackage)
    (methodMap : gmap string (list Method)) :
  getMethods sch env pkg = Ok methodMap ->
  forall a m,
    (exists ms, methodMap !! a = Some ms /\ In m ms) <->
    (exists fileName astFile src decl,
       AstPackage_Files pkg !! fileName = Some astFile /\
       ioutil_ReadFile env fileName = inl src /\
       In decl (File_Decls astFile) /\
       declares src decl a m).
Proof.
  intros H a m. unfold getMethods in H.
  set (D := fun (file : string * AstFile) (am : string * Method) =>
              exists src decl,
                ioutil_ReadFile env (fst file) = inl src /\
                In decl (File_Decls (snd file)) /\
                declares src decl (fst am) (snd am)).
  assert (HU : forall am, recorded methodMap am <->
                 recorded ∅ am \/
                 exists file, In file (range sch LoopMethodFiles (AstPackage_Files pkg)) /\
                              D file am).
  { eapply loopM_union; [| exact H].
    intros mm [fileName astFile] mm' _ Hloop am.
    rewrite (loopM_union recorded
               (fun decl am =>
                  exists src, ioutil_ReadFile env fileName = inl src /\
                              declares src decl (fst am) (snd am))
               (getMethods_decl env fileName) (File_Decls astFile) mm mm'
               (fun s x s' _ => getMethods_decl_recorded env fileName s s' x) Hloop).
    unfold D. cbn [fst snd]. split.
    - intros [H1 | (decl & Hd & src & Hs & Hdecl)]; [by left |].
      right. by exists src, decl.
    - intros [H1 | (src & decl & Hs & Hd & Hdecl)]; [by left |].
      right. exists decl. split; [exact Hd |]. by exists src. }
  specialize (HU (a, m)). unfold recorded, D in HU. cbn [fst snd] in HU.
  rewrite HU. clear HU. split.
  - intros [(ms & Hms & _) | ([fileName astFile] & Hin & src & decl & Hs & Hd & Hdecl)].
    + by rewrite lookup_empty in Hms.
    + apply elem_of_range in Hin. by exists fileName, astFile, src, decl.
  - intros (fileName & astFile & src & decl & Hfile & Hs & Hd & Hdecl).
    right. exists (fileName, astFile). split; [by apply elem_of_range |].
    by exists src, decl.
Qed.

(** An instance: the method [Get] of the file [a.go]. *)
Lemma getMethods_records_witness :
  exists methodMap ms,
    getMethods sch_az ex_env ex_pkg = Ok methodMap /\
    methodMap !! "S" = Some ms /\
    In (mkMethod "Get" [mkField "o" "S"; mkField "l" "[]S"]
                       [mkField EmptyString "*S"]) ms.
Proof.
  destruct (getMethods sch_az ex_env ex_pkg) as [methodMap| |] eqn:H;
    [| vm_compute in H; discriminate ..].
  destruct (proj2 (getMethods_records _ _ _ _ H "S"
                     (mkMethod "Get" [mkField "o" "S"; mkField "l" "[]S"]
                                     [mkField EmptyString "*S"])))
    as (ms & Hms & Hin).
  - exists "/go/src/p/a.go", ex_file, ex_src,
      (DeclFunc (mkFuncDecl (Some [mkAstField ["s"] (star 66 68)]) "Get"
                   [mkAstField ["o"] (ident 76 77);
                    mkAstField ["l"] (OtherExpr 81 84 [ident 83 84])]
                   (Some [mkAstField [] (star 86 88)]) [])).
    split; [vm_compute; reflexivity |]. split; [vm_compute; reflexivity |].
    split; [simpl; tauto |].
    eexists _, _, _. repeat split; vm_compute; reflexivity.
  - exists methodMap, ms. split; [reflexivity |]. split; [exact Hms | exact Hin].
Defined.

(** X6.  [getMethods] returns no error, and a declaration that is no
    method, or a method whose name is not exported, leaves the map of the
    methods as it is. *)
Theorem getMethods_no_error (sch : Sched) (env : Env) (pkg : AstPackage) :
  (forall e, getMethods sch env pkg <> Err e) /\
  (forall fileName src methodMap decl a,
     ioutil_ReadFile env fileName = inl src ->
     (GetReceiverTypeName src decl = Ok (a, None) \/
      exists fd, GetReceiverTypeName src decl = Ok (a, Some fd) /\
                 ast_IsExported (fd_Name fd) = false) ->
     getMethods_decl env fileName methodMap decl = Ok methodMap).
Proof.
  split; [apply no_Err_getMethods |].
  intros fileName src mm decl a Hr [Hg | (fd & Hg & Hx)];
    unfold getMethods_decl; rewrite Hr, Hg; simpl; [reflexivity |].
  by rewrite Hx.
Qed.

(** An instance: the type declaration of [S] in the file [a.go]. *)
Lemma getMethods_no_error_witness :
  getMethods_decl ex_env "/go/src/p/a.go" ∅
    (DeclGen [OtherExpr 16 57 [StructType 18 57 (st_Fields ex_struct_S)]]) = Ok ∅.
Proof.
  destruct (getMethods_no_error sch_az ex_env ex_pkg) as [_ H].
  apply (H "/go/src/p/a.go" ex_src ∅ _ EmptyString); [reflexivity |].
  left. reflexivity.
Defined.

(** An instance: the shapes of the package [p]. *)
Lemma getStructs_members_exported_witness :
  exists structs,
    getStructs sch_az ex_env ex_pkg = Ok structs /\
    forall st, In st structs ->
      exported_methods (Struct_Methods st) /\ exported_fields (Struct_Fields st).
Proof.
  destruct (getStructs sch_az ex_env ex_pkg) as [structs| |] eqn:H;
    [| vm_compute in H; discriminate ..].
  exists structs. split; [reflexivity |]. intros st Hst.
  destruct (getStructs_members_exported _ _ _ _ H st Hst) as (Hm & Hf & _).
  split; [exact Hm | exact Hf].
Defined.
